(** * django_pgschemas.management.commands._executors

    A shallow embedding of the two executors ([sequential], [parallel]) and of
    the per-tenant task [run_on_schema] they both drive, with the properties
    the specification states about them.

    Python objects that the code mutates in place (the caller's command
    instance, the caller's [kwargs] dict, the [OutputWrapper]s around the
    streams) live in an explicit process state; exceptions are the left
    summand of a result. *)

From Stdlib Require Import Ascii.
From stdpp Require Import base strings list gmap fin_maps.

Open Scope string_scope.

(** ** Python values that travel through [args] and [kwargs] *)

Inductive Value :=
  | VNone
  | VBool (b : bool)
  | VInt (z : Z)
  | VStr (s : string)
  | VStream (name : string)   (* a raw text stream, e.g. sys.stdout or a file *)
  | VWrapper (addr : nat).    (* a reference to an OutputWrapper object *)

#[global] Instance Value_eq_dec : EqDecision Value.
Proof. solve_decision. Defined.

(** ** Exceptions *)

Inductive Exn :=
  | CommandError (msg : string)          (* django.core.management.base.CommandError *)
  | DoesNotExist                         (* TenantModel.DoesNotExist, raised by objects.get *)
  | MultipleObjectsReturned              (* raised by objects.get on several matches *)
  | TypeError (msg : string)
  | OperationError (msg : string).       (* anything else the wrapped operation raises *)

#[global] Instance Exn_eq_dec : EqDecision Exn.
Proof. solve_decision. Defined.

(** ** Schemas *)

(** Modelled from the spec: [DomainInfo] comes from
    [django_pgschemas.routing.info]; the executor only ever builds it as
    [DomainInfo(domain=...)], the routing metadata being an optional primary
    domain. *)
Record DomainInfo := { domain : option string }.

(** Modelled from the spec: [Schema.create(schema_name, routing)] of
    [django_pgschemas.schema] builds a value object holding the identifier
    and the optional routing metadata ([routing] defaults to [None]). *)
Record Schema := { schema_name : string; routing : option DomainInfo }.

(** A row of the tenant model: migration 0001_initial declares [Tenant] with
    an [id] and a [schema_name]. *)
Record Tenant := { tenant_id : nat; tenant_schema_name : string }.

(** What [run_on_schema] binds to its local [schema]: either a value built by
    [Schema.create] or a model instance loaded from the tenant table. *)
Inductive SchemaObject :=
  | Created (s : Schema)
  | Loaded (t : Tenant).

#[global] Instance DomainInfo_eq_dec : EqDecision DomainInfo.
Proof. solve_decision. Defined.
#[global] Instance Schema_eq_dec : EqDecision Schema.
Proof. solve_decision. Defined.
#[global] Instance Tenant_eq_dec : EqDecision Tenant.
Proof. solve_decision. Defined.
#[global] Instance SchemaObject_eq_dec : EqDecision SchemaObject.
Proof. solve_decision. Defined.

(** ** Configuration *)

(** An entry of [settings.TENANTS]: a dict whose ["DOMAINS"] key may be
    missing. *)
Record TenantConf := { DOMAINS : option (list string) }.

Record Settings := {
  TENANTS : gmap string TenantConf;
  PGSCHEMAS_PARALLEL_MAX_PROCESSES : option positive
}.

(** The tenant model as [get_tenant_model()] hands it out. [Ext] is the state
    of everything outside the process (the database and whatever else the
    wrapped operation touches); the model's table is read from it at the
    time of the query. *)
Record TenantModel (Ext : Type) := { objects : Ext -> list Tenant }.
Arguments objects {Ext} _ _.

(** What the module reads from its surroundings. [get_clone_reference] and
    [get_tenant_model] are the two accessors of [django_pgschemas.utils];
    either may answer [None]. [cpu_count] is the pool size that
    [multiprocessing.Pool] picks when it is given [processes=None]. *)
Record Env (Ext : Type) := {
  settings : Settings;
  get_clone_reference : option string;
  get_tenant_model : option (TenantModel Ext);
  cpu_count : positive
}.
Arguments settings {Ext} _.
Arguments get_clone_reference {Ext} _.
Arguments get_tenant_model {Ext} _.
Arguments cpu_count {Ext} _.

(** ** Commands, invocations and the wrapped operation *)

Record CommandClass := { class_name : string; class_attrs : gmap string Value }.

(** A command instance: its class, its two stream attributes and whatever
    else was bound on it. *)
Record Command := {
  cmd_class : CommandClass;
  stdout : Value;
  stderr : Value;
  attrs : gmap string Value
}.

(** The [command] argument of [run_on_schema]: the caller's instance (the
    object itself, shared with the caller), a command class, or [type]
    itself, which is what [type(command)] yields when [command] already is a
    class. *)
Inductive CommandArg :=
  | Instance
  | Class (cls : CommandClass)
  | Metaclass.

(** The [kwargs] argument: [None], or the caller's dict (the object itself). *)
Inductive KwargsArg :=
  | KwargsNone
  | KwargsDict.

(** The three calls of lines 92-97, with what each hands to the operation. *)
Inductive Invocation :=
  | CallCommand (command : Command) (args : list Value) (kwargs : gmap string Value)
  | RunFromArgv (command : Command) (argv : list Value)
  | MethodCall (command : Command) (name : string) (args : list Value)
               (kwargs : gmap string Value).

Inductive StreamSel := ToStdout | ToStderr.

(** What a call of the operation does, as far as the executor can tell: the
    messages it writes to [command.stdout] and [command.stderr], in order,
    the exception it raises if any, and the outside world it leaves. *)
Record Outcome (Ext : Type) := {
  writes : list (StreamSel * string);
  raised : option Exn;
  ext_after : Ext
}.
Arguments writes {Ext} _.
Arguments raised {Ext} _.
Arguments ext_after {Ext} _.

(** ** Output wrappers and the prefixing style function *)

(** An instance of the local class [StyleFunc] (lines 54-66): the two names
    it closes over and its [last_message] attribute. *)
Record StyleFunc := {
  sf_executor_codename : string;
  sf_schema_name : string;
  last_message : option string
}.

(** The [style_func] attribute of an [OutputWrapper]: some plain function, or
    a [StyleFunc] instance. *)
Inductive StyleSlot :=
  | Plain (f : string -> string)
  | Correlator (sf : StyleFunc).

(** [django.core.management.base.OutputWrapper]: the stream it wraps and its
    style function. *)
Record OutputWrapper := { wrapped : Value; style_func : StyleSlot }.

(** ** What a process does, as a trace *)

Inductive Event :=
  | EvTask (name : string)            (* run_on_schema is entered *)
  | EvCloseAll                        (* connections.close_all() *)
  | EvResolve (name : string)         (* the if/elif chain of lines 74-85 starts *)
  | EvActivate (s : SchemaObject)     (* activate(schema) *)
  | EvInvoke (inv : Invocation)       (* one of the three calls of lines 92-97 *)
  | EvCommit                          (* transaction.commit() *)
  | EvClose                           (* connection.close() *)
  | EvSetup.                          (* configurations.setup() *)

(** ** Process state *)

Record State (Ext : Type) := {
  heap : list OutputWrapper;          (* the OutputWrapper objects, by address *)
  the_command : Command;              (* the command instance in use *)
  the_kwargs : gmap string Value;     (* the kwargs dict in use *)
  active : option SchemaObject;       (* the schema activated last *)
  trace : list Event;
  written : list (Value * string);    (* what reached the wrapped streams *)
  ext : Ext
}.
Arguments heap {Ext} _.
Arguments the_command {Ext} _.
Arguments the_kwargs {Ext} _.
Arguments active {Ext} _.
Arguments trace {Ext} _.
Arguments written {Ext} _.
Arguments ext {Ext} _.

(** Python's [str.endswith]: some tail of [s] is [suffix]. *)
Fixpoint endswith (s suffix : string) : bool :=
  bool_decide (s = suffix) ||
  match s with
  | String _ rest => endswith rest suffix
  | EmptyString => false
  end.

Definition newline : string := String "010"%char EmptyString.

Section Executors.

Context {Ext : Type}.
Variable env : Env Ext.

(** [TenantModel.objects.get(schema_name=...)]: Django's [QuerySet.get]
    returns the single matching row and raises otherwise. *)
Definition objects_get (model : TenantModel Ext) (ext : Ext) (name : string)
  : Exn + SchemaObject :=
  match filter (λ t, tenant_schema_name t = name) (objects model ext) with
  | [] => inl DoesNotExist
  | [t] => inr (Loaded t)
  | _ :: _ :: _ => inl MultipleObjectsReturned
  end.

(** Lines 74-85 of [run_on_schema]: the [if]/[elif] chain that binds
    [schema]. *)
Definition resolve_schema (name : string) (ext : Ext) : Exn + SchemaObject :=
  match TENANTS (settings env) !! name with
  | Some conf =>
      let domains := default [] (DOMAINS conf) in
      inr (Created {| schema_name := name;
                      routing := Some {| domain := match domains with
                                                   | d :: _ => Some d
                                                   | [] => None
                                                   end |} |})
  | None =>
      if decide (Some name = get_clone_reference env) then
        inr (Created {| schema_name := name; routing := None |})
      else
        match get_tenant_model env with
        | Some model => objects_get model ext name
        | None => inl (CommandError ("Unable to find schema " ++ name ++ "!"))
        end
  end.

(** *** State and exceptions *)

Definition M (A : Type) : Type := State Ext -> State Ext * (Exn + A).

Definition ret {A} (a : A) : M A := λ st, (st, inr a).

Definition raise {A} (e : Exn) : M A := λ st, (st, inl e).

Definition bind {A B} (m : M A) (k : A -> M B) : M B :=
  λ st, match m st with
        | (st', inr a) => k a st'
        | (st', inl e) => (st', inl e)
        end.

Notation "'do' x <- m ; k" := (bind m (λ x, k))
  (at level 10, x name, m at level 99, k at level 200).
Notation "m ;; k" := (bind m (λ _, k))
  (at level 100, k at level 200, right associativity).

Definition set_heap (h : list OutputWrapper) (st : State Ext) : State Ext :=
  {| heap := h; the_command := the_command st; the_kwargs := the_kwargs st;
     active := active st; trace := trace st; written := written st; ext := ext st |}.

Definition set_command (c : Command) (st : State Ext) : State Ext :=
  {| heap := heap st; the_command := c; the_kwargs := the_kwargs st;
     active := active st; trace := trace st; written := written st; ext := ext st |}.

Definition set_kwargs (kw : gmap string Value) (st : State Ext) : State Ext :=
  {| heap := heap st; the_command := the_command st; the_kwargs := kw;
     active := active st; trace := trace st; written := written st; ext := ext st |}.

Definition set_active (s : option SchemaObject) (st : State Ext) : State Ext :=
  {| heap := heap st; the_command := the_command st; the_kwargs := the_kwargs st;
     active := s; trace := trace st; written := written st; ext := ext st |}.

Definition set_trace (t : list Event) (st : State Ext) : State Ext :=
  {| heap := heap st; the_command := the_command st; the_kwargs := the_kwargs st;
     active := active st; trace := t; written := written st; ext := ext st |}.

Definition set_written (o : list (Value * string)) (st : State Ext) : State Ext :=
  {| heap := heap st; the_command := the_command st; the_kwargs := the_kwargs st;
     active := active st; trace := trace st; written := o; ext := ext st |}.

Definition set_ext (x : Ext) (st : State Ext) : State Ext :=
  {| heap := heap st; the_command := the_command st; the_kwargs := the_kwargs st;
     active := active st; trace := trace st; written := written st; ext := x |}.

Definition emit (e : Event) : M unit :=
  λ st, (set_trace (trace st ++ [e]) st, inr tt).

Definition set_stdout (v : Value) (c : Command) : Command :=
  {| cmd_class := cmd_class c; stdout := v; stderr := stderr c; attrs := attrs c |}.

Definition set_stderr (v : Value) (c : Command) : Command :=
  {| cmd_class := cmd_class c; stdout := stdout c; stderr := v; attrs := attrs c |}.

(** *** The prefixing style function *)

(** [command.style.NOTICE]. *)
Variable NOTICE : string -> string.

(** [StyleFunc.__call__] (lines 57-66): the instance after the call and the
    string returned. *)
Definition StyleFunc_call (self : StyleFunc) (message : string) : StyleFunc * string :=
  let last := last_message self in
  let self' := {| sf_executor_codename := sf_executor_codename self;
                  sf_schema_name := sf_schema_name self;
                  last_message := Some message |} in
  if match last with
     | None => true
     | Some l => endswith l newline
     end
  then (self', "[" ++ NOTICE (sf_executor_codename self) ++ ":"
                   ++ NOTICE (sf_schema_name self) ++ "] " ++ message)
  else (self', message).

(** [StyleFunc()] inside [run_on_schema schema_name executor_codename ...]:
    [last_message] starts as the class attribute [None]. *)
Definition StyleFunc_new (executor_codename name : string) : StyleFunc :=
  {| sf_executor_codename := executor_codename; sf_schema_name := name;
     last_message := None |}.

(** Calling the [style_func] of a wrapper. *)
Definition call_style (slot : StyleSlot) (message : string) : StyleSlot * string :=
  match slot with
  | Plain f => (Plain f, f message)
  | Correlator sf =>
      let '(sf', text) := StyleFunc_call sf message in (Correlator sf', text)
  end.

(** One message reaching the style function of the wrapper at address [a],
    as [OutputWrapper.write] does once it has settled the line ending:
    [self._out.write(style_func(msg))]. *)
Definition wrapper_write (a : nat) (message : string) (st : State Ext) : State Ext :=
  match heap st !! a with
  | Some w =>
      let '(slot, text) := call_style (style_func w) message in
      set_written (written st ++ [(wrapped w, text)])
        (set_heap (<[a := {| wrapped := wrapped w; style_func := slot |}]> (heap st)) st)
  | None => st
  end.

(** [command.stdout] or [command.stderr]. *)
Definition stream_of (sel : StreamSel) (c : Command) : Value :=
  match sel with
  | ToStdout => stdout c
  | ToStderr => stderr c
  end.

(** A write of the operation to [command.stdout] or [command.stderr]. *)
Definition write (w : StreamSel * string) (st : State Ext) : State Ext :=
  match stream_of w.1 (the_command st) with
  | VWrapper a => wrapper_write a w.2 st
  | _ => st
  end.



(** [OutputWrapper(out)]: a new object, at the next free address. *)
Definition OutputWrapper_new (out : Value) (st : State Ext) : State Ext * nat :=
  (set_heap (heap st ++ [{| wrapped := out; style_func := Plain (λ x, x) |}]) st,
   length (heap st)).

(** [wrapper.style_func = slot] for the wrapper a stream attribute refers to,
    as the assignment reads in lines 68-69. (Django's own setter keeps the
    function only when the wrapped stream is a terminal; that choice is the
    wrapper's and is left out here.) *)
Definition set_style_func (v : Value) (slot : StyleSlot) (st : State Ext) : State Ext :=
  match v with
  | VWrapper a =>
      set_heap (alter (λ w, {| wrapped := wrapped w; style_func := slot |}) a (heap st)) st
  | _ => st
  end.

(** *** The per-tenant task *)

(** The operation being run per tenant: what a call of it does, given the
    schema that is active and the outside world. *)
Variable operation : Invocation -> option SchemaObject -> Ext -> Outcome Ext.

(** [command()]: [BaseCommand.__init__] wraps [sys.stdout] and [sys.stderr]
    in two new [OutputWrapper]s; the other attributes are the class's. *)
Definition instantiate (cls : CommandClass) : M unit :=
  λ st,
    let '(st1, a1) := OutputWrapper_new (VStream "sys.stdout") st in
    let '(st2, a2) := OutputWrapper_new (VStream "sys.stderr") st1 in
    (set_command {| cmd_class := cls; stdout := VWrapper a1; stderr := VWrapper a2;
                    attrs := class_attrs cls |} st2, inr tt).

(** Lines 38-41. *)
Definition bind_command (command : CommandArg) : M unit :=
  match command with
  | Instance => ret tt
  | Class cls => instantiate cls
  | Metaclass => raise (TypeError "type() takes 1 or 3 arguments")
  end.

(** Lines 43-45. *)
Definition bind_stdout : M unit :=
  λ st,
    let v := default (stdout (the_command st)) (the_kwargs st !! "stdout") in
    let st1 := set_command (set_stdout v (the_command st))
                 (set_kwargs (delete "stdout" (the_kwargs st)) st) in
    match v with
    | VWrapper _ => (st1, inr tt)
    | _ =>
        let '(st2, a) := OutputWrapper_new v st1 in
        (set_command (set_stdout (VWrapper a) (the_command st2)) st2, inr tt)
    end.

(** Lines 47-49. *)
Definition bind_stderr : M unit :=
  λ st,
    let v := default (stderr (the_command st)) (the_kwargs st !! "stderr") in
    let st1 := set_command (set_stderr v (the_command st))
                 (set_kwargs (delete "stderr" (the_kwargs st)) st) in
    match v with
    | VWrapper _ => (st1, inr tt)
    | _ =>
        let '(st2, a) := OutputWrapper_new v st1 in
        (set_command (set_stderr (VWrapper a) (the_command st2)) st2, inr tt)
    end.

(** Lines 68-69. *)
Definition install_style_funcs (name executor_codename : string) : M unit :=
  λ st,
    let st1 := set_style_func (stdout (the_command st))
                 (Correlator (StyleFunc_new executor_codename name)) st in
    let st2 := set_style_func (stderr (the_command st1))
                 (Correlator (StyleFunc_new executor_codename name)) st1 in
    (st2, inr tt).

(** Lines 43-69 together: the streams of the command as the operation will
    find them. *)
Definition prepare_streams (name executor_codename : string) : M unit :=
  bind_stdout ;; bind_stderr ;; install_style_funcs name executor_codename.

(** Lines 74-85, in the process: the tenant table is read from the outside
    world as it is now. *)
Definition bind_schema (name : string) : M SchemaObject :=
  λ st, (set_trace (trace st ++ [EvResolve name]) st, resolve_schema name (ext st)).

(** Modelled from the spec: [activate(schema)] of [django_pgschemas.schema]
    binds the schema to the current connection; a later activation fully
    replaces the earlier one. *)
Definition activate (schema : SchemaObject) : M unit :=
  λ st, (set_trace (trace st ++ [EvActivate schema]) (set_active (Some schema) st), inr tt).

(** Lines 89-90. *)
Definition inject_schema_name (name : string) (pass_schema_in_kwargs : bool) : M unit :=
  λ st,
    if pass_schema_in_kwargs
    then (set_kwargs (<["schema_name" := VStr name]> (the_kwargs st)) st, inr tt)
    else (st, inr tt).

(** One call of the operation: it is logged, its messages go through the
    wrappers of the command, and its exception, if any, propagates. *)
Definition invoke (inv : Invocation) : M unit :=
  λ st,
    let o := operation inv (active st) (ext st) in
    let st1 := set_ext (ext_after o) (set_trace (trace st ++ [EvInvoke inv]) st) in
    let st2 := foldl (λ s w, write w s) st1 (writes o) in
    match raised o with
    | Some e => (st2, inl e)
    | None => (st2, inr tt)
    end.

(** Lines 92-97. [getattr(command, None)] is a [TypeError]. *)
Definition dispatch (function_name : option string) (args : list Value) : M unit :=
  λ st,
    if decide (function_name = Some "special:call_command") then
      invoke (CallCommand (the_command st) args (the_kwargs st)) st
    else if decide (function_name = Some "special:run_from_argv") then
      invoke (RunFromArgv (the_command st) args) st
    else
      match function_name with
      | Some name => invoke (MethodCall (the_command st) name args (the_kwargs st)) st
      | None => (st, inl (TypeError "attribute name must be string, not 'NoneType'"))
      end.

(** Lines 99-101. *)
Definition finalize (fork_db : bool) : M unit :=
  if fork_db then emit EvCommit ;; emit EvClose else ret tt.

(** Lines 38-103, on the command and the dict in use. *)
Definition run_on_schema_body (name executor_codename : string) (command : CommandArg)
    (function_name : option string) (args : list Value)
    (pass_schema_in_kwargs fork_db : bool) : M string :=
  bind_command command ;;
  prepare_streams name executor_codename ;;
  (if fork_db then emit EvCloseAll else ret tt) ;;
  do schema <- bind_schema name ;
  activate schema ;;
  inject_schema_name name pass_schema_in_kwargs ;;
  dispatch function_name args ;;
  finalize fork_db ;;
  ret name.

(** [run_on_schema]. With [kwargs=None] the dict in use is a new empty one
    (lines 35-36), and with a class for [command] the instance in use is a
    new one (line 41); neither outlives the call, and the caller's own
    objects are then as they were. With the caller's dict and instance,
    every change is made to the caller's objects and stays. *)
Definition run_on_schema (name executor_codename : string) (command : CommandArg)
    (function_name : option string) (args : option (list Value)) (kwargs : KwargsArg)
    (pass_schema_in_kwargs fork_db : bool) : M string :=
  λ st,
    let args := default [] args in
    let st0 := match kwargs with
               | KwargsNone => set_kwargs ∅ st
               | KwargsDict => st
               end in
    let '(st1, r) := run_on_schema_body name executor_codename command function_name
                       args pass_schema_in_kwargs fork_db
                       (set_trace (trace st0 ++ [EvTask name]) st0) in
    let st2 := match kwargs with
               | KwargsNone => set_kwargs (the_kwargs st) st1
               | KwargsDict => st1
               end in
    let st3 := match command with
               | Instance => st2
               | _ => set_command (the_command st) st2
               end in
    (st3, r).

(** *** Sequential executor *)

(** Whether [tqdm] could be imported (lines 14-21). *)
Variable HAS_TQDM : bool.

(** [tqdm(iterable, ...)] yields the items of [iterable], in order. *)
Definition tqdm {A} (iterable : list A) : list A := iterable.

(** [for schema in schemas: runner(schema)]. *)
Fixpoint for_each (runner : string -> M string) (schemas : list string) : M unit :=
  match schemas with
  | [] => ret tt
  | schema :: rest => runner schema ;; for_each runner rest
  end.

(** The [functools.partial] of lines 109-118. *)
Definition sequential_runner (command : CommandArg) (function_name : option string)
    (args : option (list Value)) (kwargs : KwargsArg) (pass_schema_in_kwargs : bool)
    : string -> M string :=
  λ name, run_on_schema name "sequential" command function_name args kwargs
            pass_schema_in_kwargs false.

Definition sequential (schemas : list string) (command : CommandArg)
    (function_name : option string) (args : option (list Value)) (kwargs : KwargsArg)
    (pass_schema_in_kwargs : bool) : M (list string) :=
  let runner := sequential_runner command function_name args kwargs
                  pass_schema_in_kwargs in
  (if HAS_TQDM
   then for_each runner (tqdm schemas)
   else for_each runner schemas) ;;
  ret schemas.

(** *** Parallel executor *)

(** Whether [configurations] can be imported (lines 130-134). *)
Variable HAS_CONFIGURATIONS : bool.

(** [init_configurations] (lines 128-134). *)
Definition init_configurations : M unit :=
  if HAS_CONFIGURATIONS then emit EvSetup else ret tt.

(** [type(command)]. *)
Definition type_of (command : CommandArg) (st : State Ext) : CommandArg :=
  match command with
  | Instance => Class (cmd_class (the_command st))
  | Class _ => Metaclass
  | Metaclass => Metaclass
  end.

(** The [functools.partial] of lines 139-148. *)
Definition parallel_runner (command_type : CommandArg) (function_name : option string)
    (args : option (list Value)) (kwargs : KwargsArg) (pass_schema_in_kwargs : bool)
    : string -> M string :=
  λ name, run_on_schema name "parallel" command_type function_name args kwargs
            pass_schema_in_kwargs true.

(** A [multiprocessing.Pool] at work: the outside world its workers share,
    the state of each worker process, and the results that have come back so
    far, each with the position of its task in the input. *)
Record Pool := {
  pool_ext : Ext;
  workers : list (State Ext);
  arrivals : list (nat * (Exn + string))
}.

(** [multiprocessing.Pool(processes, initializer)]: every worker is a fork of
    the calling process and runs the initializer first. A pool given
    [processes=None] has one worker per CPU. *)
Definition pool_size (processes : option positive) : nat :=
  Pos.to_nat (default (cpu_count env) processes).

Definition Pool_new (processes : option positive) (initializer : M unit)
    (st : State Ext) : Pool :=
  {| pool_ext := ext st;
     workers := replicate (pool_size processes) (initializer st).1;
     arrivals := [] |}.

(** One task of the pool, run to its end by one worker: task [i] of the
    input on worker [k]. The worker receives the pickled [runner], so the
    [kwargs] dict it works on is a copy of the caller's, made for this task;
    the command instance and the dict of the forked state are the worker's
    own copies in any case. Tasks are handed out one by one. *)
Definition pool_step (runner : string -> M string) (kwargs0 : gmap string Value)
    (schemas : list string) (p : Pool) (step : nat * nat) : Pool :=
  match schemas !! step.1, workers p !! step.2 with
  | Some name, Some w =>
      let '(w', r) := runner name (set_kwargs kwargs0 (set_ext (pool_ext p) w)) in
      {| pool_ext := ext w';
         workers := <[step.2 := w']> (workers p);
         arrivals := arrivals p ++ [(step.1, r)] |}
  | _, _ => p
  end.

(** The pool after a schedule: the tasks in the order in which they are run,
    each with the worker that runs it. *)
Definition pool_run (runner : string -> M string) (kwargs0 : gmap string Value)
    (schemas : list string) (schedule : list (nat * nat)) (p : Pool) : Pool :=
  foldl (pool_step runner kwargs0 schemas) p schedule.

(** [multiprocessing.pool.MapResult], the collector behind [pool.map]. *)
Record MapResult := {
  mr_success : bool;
  mr_value : Exn + list (option string);
  mr_number_left : nat
}.

Definition MapResult_new (length : nat) : MapResult :=
  {| mr_success := true; mr_value := inr (replicate length None);
     mr_number_left := length |}.

(** [MapResult._set]: a result is stored at the position of its task; only
    the first exception is kept. *)
Definition MapResult_set (mr : MapResult) (arrival : nat * (Exn + string)) : MapResult :=
  let left := mr_number_left mr - 1 in
  match arrival.2 with
  | inr v =>
      if mr_success mr then
        {| mr_success := true;
           mr_value := match mr_value mr with
                       | inr l => inr (<[arrival.1 := Some v]> l)
                       | inl e => inl e
                       end;
           mr_number_left := left |}
      else
        {| mr_success := false; mr_value := mr_value mr; mr_number_left := left |}
  | inl e =>
      if mr_success mr then
        {| mr_success := false; mr_value := inl e; mr_number_left := left |}
      else
        {| mr_success := false; mr_value := mr_value mr; mr_number_left := left |}
  end.

(** [MapResult.get]: ready once every task has come back; [None] stands for
    a call that never returns. *)
Definition MapResult_get (mr : MapResult) : option (Exn + list string) :=
  if decide (mr_number_left mr = 0) then
    match mr_value mr with
    | inl e => Some (inl e)
    | inr l => inr <$> mapM id l
    end
  else None.

(** [pool.map(runner, schemas)], given what came back and in which order. *)
Definition pool_map (length : nat) (arrived : list (nat * (Exn + string)))
  : option (Exn + list string) :=
  MapResult_get (foldl MapResult_set (MapResult_new length) arrived).

(** [list(pool.imap(runner, schemas))]: the iterator yields the results by
    position and raises at the first position that failed. *)
Fixpoint imap_list (results : list (option (Exn + string))) : option (Exn + list string) :=
  match results with
  | [] => Some (inr [])
  | None :: _ => None
  | Some (inl e) :: _ => Some (inl e)
  | Some (inr v) :: rest =>
      match imap_list rest with
      | Some (inr vs) => Some (inr (v :: vs))
      | other => other
      end
  end.

Definition pool_imap (length : nat) (arrived : list (nat * (Exn + string)))
  : option (Exn + list string) :=
  imap_list (foldl (λ acc (a : nat * (Exn + string)), <[a.1 := Some a.2]> acc)
                   (replicate length None) arrived).

(** The pool of [parallel] once the schedule has run. *)
Definition parallel_pool (schedule : list (nat * nat)) (schemas : list string)
    (command : CommandArg) (function_name : option string)
    (args : option (list Value)) (kwargs : KwargsArg) (pass_schema_in_kwargs : bool)
    (st : State Ext) : Pool :=
  let processes := PGSCHEMAS_PARALLEL_MAX_PROCESSES (settings env) in
  let pool := Pool_new processes init_configurations st in
  let runner := parallel_runner (type_of command st) function_name args kwargs
                  pass_schema_in_kwargs in
  pool_run runner (the_kwargs st) schemas schedule pool.

(** [parallel]. The calling process keeps its own state; only the outside
    world has moved. *)
Definition parallel (schedule : list (nat * nat)) (schemas : list string)
    (command : CommandArg) (function_name : option string)
    (args : option (list Value)) (kwargs : KwargsArg) (pass_schema_in_kwargs : bool)
    (st : State Ext) : State Ext * option (Exn + list string) :=
  let pool := parallel_pool schedule schemas command function_name args kwargs
                pass_schema_in_kwargs st in
  (set_ext (pool_ext pool) st,
   if HAS_TQDM
   then pool_imap (length (tqdm schemas)) (arrivals pool)
   else pool_map (length schemas) (arrivals pool)).

(** A schedule that runs each of [n] tasks once, on workers that exist. *)
Definition valid_schedule (n m : nat) (schedule : list (nat * nat)) : Prop :=
  schedule.*1 ≡ₚ seq 0 n ∧ Forall (λ step, step.2 < m) schedule.

(** Every task of a sequential pass returns, each starting from the state
    the one before it left. *)
Fixpoint all_succeed (runner : string -> M string) (schemas : list string)
    (st : State Ext) : Prop :=
  match schemas with
  | [] => True
  | schema :: rest =>
      match runner schema st with
      | (st', inr _) => all_succeed runner rest st'
      | (_, inl _) => False
      end
  end.

End Executors.

(** ** Reading traces *)

Definition task_of (e : Event) : option string :=
  match e with
  | EvTask name => Some name
  | _ => None
  end.

(** The tasks that were started, in order. *)
Definition tasks_of (t : list Event) : list string := omap task_of t.

Definition invocation_of (e : Event) : option Invocation :=
  match e with
  | EvInvoke inv => Some inv
  | _ => None
  end.

(** The calls the operation received, in order. *)
Definition invocations_of (t : list Event) : list Invocation := omap invocation_of t.

(** The three operations on database connections. *)
Definition connection_event (e : Event) : bool :=
  match e with
  | EvCloseAll | EvCommit | EvClose => true
  | _ => false
  end.

(** The named arguments a call hands to the operation; an argv call has
    none. *)
Definition named_arguments (inv : Invocation) : gmap string Value :=
  match inv with
  | CallCommand _ _ kwargs => kwargs
  | RunFromArgv _ _ => ∅
  | MethodCall _ _ _ kwargs => kwargs
  end.


(** Nothing was written before, or what was written last ended its line. *)
Definition fresh_line (self : StyleFunc) : Prop :=
  last_message self = None ∨
  ∃ before, last_message self = Some before ∧ endswith before newline = true.

(** What lines 43 and 47 bind to [command.stdout] and [command.stderr]: the
    entry of the dict, or else the attribute as it is. *)
Definition bound_stdout {Ext : Type} (st : State Ext) : Value :=
  default (stdout (the_command st)) (the_kwargs st !! "stdout").

Definition bound_stderr {Ext : Type} (st : State Ext) : Value :=
  default (stderr (the_command st)) (the_kwargs st !! "stderr").

(** The command instance a call is made on. *)
Definition command_of (inv : Invocation) : Command :=
  match inv with
  | CallCommand command _ _ => command
  | RunFromArgv command _ => command
  | MethodCall command _ _ _ => command
  end.

(** The call that lines 92-97 make for a function name. *)
Definition call_for (f : string) (command : Command) (args : list Value)
    (kwargs : gmap string Value) : Invocation :=
  if decide (f = "special:call_command") then CallCommand command args kwargs
  else if decide (f = "special:run_from_argv") then RunFromArgv command args
  else MethodCall command f args kwargs.

(** The dict in use once lines 43-49 have taken the streams out of it, and
    once lines 89-90 have run. *)
Definition without_streams (kwargs : gmap string Value) : gmap string Value :=
  delete "stderr" (delete "stdout" kwargs).

Definition injected (pass_schema_in_kwargs : bool) (name : string)
    (kwargs : gmap string Value) : gmap string Value :=
  if pass_schema_in_kwargs then <["schema_name" := VStr name]> kwargs else kwargs.

Definition closing (fork_db : bool) : list Event :=
  if fork_db then [EvCloseAll] else [].

Definition finishing (fork_db : bool) : list Event :=
  if fork_db then [EvCommit; EvClose] else [].

(** The courses a task can take from the resolution of its schema on: what
    it does after [EvResolve], what it returns or raises, and the dict in
    use at its end. [kwargs] is the dict in use without its streams, [cls]
    and [bound] are the class and the attributes of the command in use. *)
Inductive course (name : string) (function_name : option string) (args : list Value)
    (pass_schema_in_kwargs fork_db : bool) (cls : CommandClass)
    (bound kwargs : gmap string Value)
  : Exn + SchemaObject -> list Event -> Exn + string -> gmap string Value -> Prop :=
  | course_unresolved e :
      course name function_name args pass_schema_in_kwargs fork_db cls bound kwargs
        (inl e) [] (inl e) kwargs
  | course_no_function schema :
      function_name = None ->
      course name function_name args pass_schema_in_kwargs fork_db cls bound kwargs
        (inr schema) [EvActivate schema]
        (inl (TypeError "attribute name must be string, not 'NoneType'"))
        (injected pass_schema_in_kwargs name kwargs)
  | course_raised schema f command e :
      function_name = Some f ->
      cmd_class command = cls -> attrs command = bound ->
      course name function_name args pass_schema_in_kwargs fork_db cls bound kwargs
        (inr schema)
        [EvActivate schema;
         EvInvoke (call_for f command args (injected pass_schema_in_kwargs name kwargs))]
        (inl e)
        (injected pass_schema_in_kwargs name kwargs)
  | course_returned schema f command :
      function_name = Some f ->
      cmd_class command = cls -> attrs command = bound ->
      course name function_name args pass_schema_in_kwargs fork_db cls bound kwargs
        (inr schema)
        ([EvActivate schema;
          EvInvoke (call_for f command args (injected pass_schema_in_kwargs name kwargs))]
         ++ finishing fork_db)
        (inr name)
        (injected pass_schema_in_kwargs name kwargs).

(** A dict that kept every entry a run has no business with: all but
    "stdout" and "stderr", and "schema_name" when the schema name is
    passed. *)
Definition kwargs_kept (pass_schema_in_kwargs : bool)
    (before after : gmap string Value) : Prop :=
  ∀ key, key ≠ "stdout" → key ≠ "stderr" →
         (pass_schema_in_kwargs = false ∨ key ≠ "schema_name") →
         after !! key = before !! key.

(** What a write leaves alone: everything but the wrappers and the text
    that reached the streams. *)
Definition frame {Ext : Type} (st st' : State Ext) : Prop :=
  trace st' = trace st ∧ the_kwargs st' = the_kwargs st ∧
  the_command st' = the_command st ∧ active st' = active st ∧ ext st' = ext st.

(** ** Further readings of schemas, traces and streams *)

(** The name a schema object goes by. *)
Definition name_of (s : SchemaObject) : string :=
  match s with
  | Created s => schema_name s
  | Loaded t => tenant_schema_name t
  end.

Definition activation_of (e : Event) : option SchemaObject :=
  match e with
  | EvActivate s => Some s
  | _ => None
  end.

(** The schemas that were activated, in order. *)
Definition activations_of (t : list Event) : list SchemaObject := omap activation_of t.

(** The test of line 60 on the message written before, if any. *)
Definition line_start (before : option string) : bool :=
  match before with
  | None => true
  | Some l => endswith l newline
  end.

(** The prefix of line 61. *)
Definition prefix_of (NOTICE : string -> string) (self : StyleFunc) : string :=
  "[" ++ NOTICE (sf_executor_codename self) ++ ":"
      ++ NOTICE (sf_schema_name self) ++ "] ".

(** One [StyleFunc] instance called on one message after the other. *)
Fixpoint StyleFunc_calls (NOTICE : string -> string) (self : StyleFunc)
    (messages : list string) : StyleFunc * list string :=
  match messages with
  | [] => (self, [])
  | message :: rest =>
      let '(self1, text) := StyleFunc_call NOTICE self message in
      let '(self2, texts) := StyleFunc_calls NOTICE self1 rest in
      (self2, text :: texts)
  end.

(** The stream behind [command.stdout] or [command.stderr]: what the wrapper
    the attribute refers to wraps. *)
Definition destination {Ext : Type} (sel : StreamSel) (st : State Ext) : option Value :=
  match stream_of sel (the_command st) with
  | VWrapper a => wrapped <$> heap st !! a
  | _ => None
  end.

(** A task that came back with a result. *)
Definition returned (r : Exn + string) : Prop := ∃ token, r = inr token.

(** Where text ends up once a value is bound to a stream of the command by
    lines 43-49: behind the wrapper when the value is one, and else at the
    value itself, which gets a wrapper of its own. *)
Definition target (v : Value) (h : list OutputWrapper) : option Value :=
  match v with
  | VWrapper a => wrapped <$> h !! a
  | _ => Some v
  end.

(** The wrappers that lines 43 and 47 may bind are objects that exist. *)
Definition wrappers_exist {Ext : Type} (st : State Ext) : Prop :=
  ∀ a, bound_stdout st = VWrapper a ∨ bound_stderr st = VWrapper a →
       a < length (heap st).

(** The command holds the same streams, and every wrapper wraps what it
    wrapped. *)
Definition same_streams {Ext : Type} (st st' : State Ext) : Prop :=
  the_command st' = the_command st ∧
  ∀ a, wrapped <$> heap st' !! a = wrapped <$> heap st !! a.

(** The value that lines 43 and 47 bind to a stream of the command in use:
    the entry of the dict in use, or else the stream the command in use
    has, which for a new instance is [sys.stdout] or [sys.stderr]. *)
Definition stream_key (sel : StreamSel) : string :=
  match sel with
  | ToStdout => "stdout"
  | ToStderr => "stderr"
  end.

Definition sys_stream (sel : StreamSel) : Value :=
  match sel with
  | ToStdout => VStream "sys.stdout"
  | ToStderr => VStream "sys.stderr"
  end.

Definition stream_source {Ext : Type} (sel : StreamSel) (command : CommandArg)
    (kwargs : KwargsArg) (st : State Ext) : Value :=
  default
    match command with
    | Instance => stream_of sel (the_command st)
    | _ => sys_stream sel
    end
    match kwargs with
    | KwargsDict => the_kwargs st !! stream_key sel
    | KwargsNone => None
    end.

(** The wrappers among these are objects that exist. *)
Definition sources_exist {Ext : Type} (command : CommandArg) (kwargs : KwargsArg)
    (st : State Ext) : Prop :=
  ∀ sel a, stream_source sel command kwargs st = VWrapper a → a < length (heap st).

Definition bound {Ext : Type} (sel : StreamSel) (st : State Ext) : Value :=
  match sel with
  | ToStdout => bound_stdout st
  | ToStderr => bound_stderr st
  end.

(** ** A small deployment, for concrete runs *)

Module Demo.

(** The outside world is the tenant table. *)
Definition World : Type := list Tenant.

Definition demo_settings : Settings :=
  {| TENANTS := <["public" := {| DOMAINS := None |}]>
                (<["www" := {| DOMAINS := Some ["a.example.com"; "b.example.com"] |}]> ∅);
     PGSCHEMAS_PARALLEL_MAX_PROCESSES := Some 2%positive |}.

Definition demo_env : Env World :=
  {| settings := demo_settings;
     get_clone_reference := Some "sample";
     get_tenant_model := Some {| objects := λ table, table |};
     cpu_count := 4%positive |}.

(** The same deployment without a tenant model. *)
Definition static_env : Env World :=
  {| settings := demo_settings;
     get_clone_reference := Some "sample";
     get_tenant_model := None;
     cpu_count := 4%positive |}.

Definition demo_table : World :=
  [ {| tenant_id := 1; tenant_schema_name := "tenant1" |};
    {| tenant_id := 2; tenant_schema_name := "www" |};
    {| tenant_id := 3; tenant_schema_name := "broken" |};
    {| tenant_id := 4; tenant_schema_name := "sample" |} ].

Definition no_style (text : string) : string := text.

Definition demo_class : CommandClass := {| class_name := "Command"; class_attrs := ∅ |}.

Definition demo_command : Command :=
  {| cmd_class := demo_class; stdout := VWrapper 0; stderr := VWrapper 1;
     attrs := <["verbose" := VBool true]> ∅ |}.

Definition demo_heap : list OutputWrapper :=
  [ {| wrapped := VStream "sys.stdout"; style_func := Plain no_style |};
    {| wrapped := VStream "sys.stderr"; style_func := Plain no_style |} ].

Definition demo_state : State World :=
  {| heap := demo_heap;
     the_command := demo_command;
     the_kwargs := <["stdout" := VStream "report.txt"]> (<["verbosity" := VInt 1]> ∅);
     active := None;
     trace := [];
     written := [];
     ext := demo_table |}.

(** Another instance of the same class, with streams and attributes of its
    own. *)
Definition custom_command : Command :=
  {| cmd_class := demo_class; stdout := VWrapper 1; stderr := VWrapper 1;
     attrs := <["dry_run" := VBool true]> ∅ |}.


(** An operation that reports on both streams and fails on the tenant
    called "broken". *)
Definition demo_operation (inv : Invocation) (schema : option SchemaObject)
    (table : World) : Outcome World :=
  {| writes := [(ToStdout, "migrating" ++ newline); (ToStderr, "warning");
                (ToStderr, " ignored" ++ newline)];
     raised := match schema with
               | Some (Loaded t) =>
                   if decide (tenant_schema_name t = "broken")
                   then Some (OperationError "boom") else None
               | _ => None
               end;
     ext_after := table |}.

(** One task that is to pass the schema name to an argv call. *)
Definition argv_task : State World :=
  (run_on_schema demo_env no_style demo_operation "tenant1" "sequential" Instance
     (Some "special:run_from_argv") None KwargsDict true false demo_state).1.

(** A sequential run over two schemas, with the caller's dict and instance. *)
Definition sequential_run : State World :=
  (sequential demo_env no_style demo_operation false ["www"; "tenant1"] Instance
     (Some "handle_tenant") None KwargsDict true demo_state).1.




End Demo.

(** ** Properties *)

Section Properties.

Local Open Scope list_scope.

Context {Ext : Type}.
Variable env : Env Ext.
Variable NOTICE : string -> string.
Variable operation : Invocation -> option SchemaObject -> Ext -> Outcome Ext.
Variable HAS_TQDM : bool.
Variable HAS_CONFIGURATIONS : bool.

(** *** Tenant resolution *)

(** C1. An identifier of the static configuration resolves to the value
    built from its entry, with the first configured domain as routing
    metadata, or none when the entry lists no domain; what the clone
    reference and the tenant table hold for the same identifier plays no
    part. Failing that, the clone reference name resolves to a value without
    routing metadata whatever the table holds, and only then is the tenant
    table asked, its answer being the result as it is. *)
Theorem resolve_schema_source_order (name : string) (ext : Ext) :
  (∀ conf, TENANTS (settings env) !! name = Some conf →
     resolve_schema env name ext =
       inr (Created {| schema_name := name;
                       routing := Some {| domain := head (default [] (DOMAINS conf)) |} |})) ∧
  (TENANTS (settings env) !! name = None →
   get_clone_reference env = Some name →
     resolve_schema env name ext =
       inr (Created {| schema_name := name; routing := None |})) ∧
  (TENANTS (settings env) !! name = None →
   get_clone_reference env ≠ Some name →
   ∀ model, get_tenant_model env = Some model →
     resolve_schema env name ext = objects_get model ext name).
Proof.
  unfold resolve_schema. repeat split.
  - intros conf ->. simpl. by destruct (default [] (DOMAINS conf)).
  - intros -> ->. by rewrite decide_True.
  - intros -> Hne model ->. by rewrite decide_False.
Qed.

(** C2. For an identifier that is neither in the static configuration nor
    the clone reference name: without a tenant model the failure is the
    [CommandError] "Unable to find schema ...!"; with a tenant model whose
    table has no row for the identifier, the failure is the model's own
    [DoesNotExist], which is not a [CommandError]. *)
Theorem resolve_schema_unknown (name : string) (ext : Ext) :
  TENANTS (settings env) !! name = None →
  get_clone_reference env ≠ Some name →
  (get_tenant_model env = None →
     resolve_schema env name ext =
       inl (CommandError ("Unable to find schema " +:+ name +:+ "!"))) ∧
  (∀ model, get_tenant_model env = Some model →
     Forall (λ t, tenant_schema_name t ≠ name) (objects model ext) →
     resolve_schema env name ext = inl DoesNotExist ∧
     ∀ msg, resolve_schema env name ext ≠ inl (CommandError msg)).
Proof.
  intros Hstatic Hclone. unfold resolve_schema. rewrite Hstatic.
  rewrite decide_False by congruence. split.
  - by intros ->.
  - intros model -> Hrows. unfold objects_get.
    assert (filter (λ t, tenant_schema_name t = name) (objects model ext) = []) as ->.
    { induction Hrows as [|t rows Ht _ IH]; [done|].
      by rewrite filter_cons_False. }
    split; [done | by intros msg].
Qed.

(** *** The prefixing style function *)

Lemma endswith_suffix (s suffix : string) :
  endswith s suffix = true ↔ ∃ front, s = front +:+ suffix.
Proof.
  induction s as [|c s IH]; simpl.
  - rewrite orb_false_r, bool_decide_eq_true. split.
    + intros <-. by exists "".
    + intros [front H]. destruct front; [done | discriminate].
  - rewrite orb_true_iff, bool_decide_eq_true, IH. split.
    + intros [<- | [front ->]]; [by exists "" | by exists (String c front)].
    + intros [[|c' front] H]; simpl in H; [by left | right].
      injection H as -> ->. by exists front.
Qed.

Lemma string_app_cons (c : ascii) (s1 s2 : string) :
  String c s1 +:+ s2 = String c (s1 +:+ s2).
Proof. reflexivity. Qed.

Lemma string_app_length (s1 s2 : string) :
  String.length (s1 +:+ s2) = String.length s1 + String.length s2.
Proof.
  induction s1 as [|c s1 IH]; [done|].
  rewrite string_app_cons. simpl. by rewrite IH.
Qed.

Lemma string_app_assoc (s1 s2 s3 : string) :
  (s1 +:+ s2) +:+ s3 = s1 +:+ s2 +:+ s3.
Proof.
  induction s1 as [|c s1 IH]; [done|].
  rewrite !string_app_cons. by rewrite IH.
Qed.

Lemma prefixed_is_longer (prefix message : string) :
  prefix ≠ "" → prefix +:+ message ≠ message.
Proof.
  intros Hne Heq. apply (f_equal String.length) in Heq.
  rewrite string_app_length in Heq. destruct prefix; [done | simpl in Heq; lia].
Qed.

(** C3. One call of the style function: the returned text is the message
    behind "[executor:tenant] " exactly when no message came before or the
    one before ended in a line break; otherwise it is the message as it is;
    and in both cases the message becomes the stored last message. *)
Theorem StyleFunc_call_prefixing (self : StyleFunc) (message : string) :
  ((StyleFunc_call NOTICE self message).2 =
     ("[" +:+ NOTICE (sf_executor_codename self) +:+ ":"
          +:+ NOTICE (sf_schema_name self) +:+ "] ") +:+ message
   ↔ fresh_line self) ∧
  (¬ fresh_line self → (StyleFunc_call NOTICE self message).2 = message) ∧
  last_message (StyleFunc_call NOTICE self message).1 = Some message.
Proof.
  unfold StyleFunc_call, fresh_line.
  destruct (last_message self) as [before|] eqn:Hlast; simpl.
  - destruct (endswith before newline) eqn:Hend; simpl.
    + repeat split.
      * intros _. right. by exists before.
      * by rewrite !string_app_assoc.
      * intros []. right. by exists before.
    + repeat split.
      * intros Heq. symmetry in Heq.
        apply prefixed_is_longer in Heq; [done|].
        by rewrite string_app_cons.
      * intros [? | (b & [= <-] & ?)]; congruence.
  - repeat split.
    + intros _. by left.
    + by rewrite !string_app_assoc.
    + intros []. by left.
Qed.

(** *** How the steps of a task move the state *)

Lemma frame_refl (st : State Ext) : frame st st.
Proof. by repeat split. Qed.

Lemma frame_trans (st1 st2 st3 : State Ext) :
  frame st1 st2 → frame st2 st3 → frame st1 st3.
Proof.
  intros (? & ? & ? & ? & ?) (? & ? & ? & ? & ?).
  repeat split; congruence.
Qed.

Lemma wrapper_write_frame (a : nat) (message : string) (st : State Ext) :
  frame st (wrapper_write NOTICE a message st).
Proof.
  unfold wrapper_write. destruct (heap st !! a) as [w|]; [|apply frame_refl].
  by destruct (call_style NOTICE (style_func w) message).
Qed.

Lemma write_frame (w : StreamSel * string) (st : State Ext) :
  frame st (write NOTICE w st).
Proof.
  unfold write.
  destruct (stream_of w.1 (the_command st)); try apply frame_refl.
  apply wrapper_write_frame.
Qed.

Lemma writes_frame (ws : list (StreamSel * string)) (st : State Ext) :
  frame st (foldl (λ s w, write NOTICE w s) st ws).
Proof.
  revert st. induction ws as [|w ws IH]; intros st; simpl; [apply frame_refl|].
  eapply frame_trans; [apply write_frame | apply IH].
Qed.

(** Lines 43-69 never fail; they take "stdout" and "stderr" out of the dict
    in use and touch nothing else but the command's streams. *)
Lemma prepare_streams_spec (name executor_codename : string) (st : State Ext) :
  ∃ st', prepare_streams name executor_codename st = (st', inr tt) ∧
         trace st' = trace st ∧ active st' = active st ∧ ext st' = ext st ∧
         the_kwargs st' = without_streams (the_kwargs st) ∧
         cmd_class (the_command st') = cmd_class (the_command st) ∧
         attrs (the_command st') = attrs (the_command st).
Proof.
  unfold prepare_streams, bind, bind_stdout, bind_stderr, install_style_funcs.
  destruct (default (stdout (the_command st)) (the_kwargs st !! "stdout")); simpl;
    match goal with
    | |- context [default ?d ?o] => destruct (default d o)
    end; simpl; eexists; (split; [reflexivity|]); simpl;
    by repeat split.
Qed.

Lemma invoke_spec (inv : Invocation) (st : State Ext) :
  ∃ st', invoke NOTICE operation inv st =
           (st', match raised (operation inv (active st) (ext st)) with
                 | Some e => inl e
                 | None => inr tt
                 end) ∧
         trace st' = trace st ++ [EvInvoke inv] ∧
         the_kwargs st' = the_kwargs st ∧
         the_command st' = the_command st ∧
         active st' = active st.
Proof.
  unfold invoke.
  set (o := operation inv (active st) (ext st)).
  set (st1 := set_ext (ext_after o) (set_trace (trace st ++ [EvInvoke inv]) st)).
  destruct (writes_frame (writes o) st1) as (Ht & Hk & Hc & Ha & _).
  exists (foldl (λ s w, write NOTICE w s) st1 (writes o)).
  split; [by destruct (raised o)|].
  by rewrite Ht, Hk, Hc, Ha.
Qed.

(** The call that lines 92-97 make for a given [function_name], if any. *)
Lemma dispatch_spec (function_name : option string) (args : list Value) (st : State Ext) :
  match function_name with
  | None =>
      dispatch NOTICE operation function_name args st =
        (st, inl (TypeError "attribute name must be string, not 'NoneType'"))
  | Some f =>
      dispatch NOTICE operation function_name args st =
        invoke NOTICE operation
          (if decide (f = "special:call_command")
           then CallCommand (the_command st) args (the_kwargs st)
           else if decide (f = "special:run_from_argv")
                then RunFromArgv (the_command st) args
                else MethodCall (the_command st) f args (the_kwargs st)) st
  end.
Proof.
  unfold dispatch. destruct function_name as [f|].
  - destruct (decide (f = "special:call_command")) as [->|Hne1].
    { by rewrite decide_True. }
    rewrite decide_False by congruence.
    destruct (decide (f = "special:run_from_argv")) as [->|Hne2].
    { by rewrite decide_True. }
    by rewrite decide_False by congruence.
  - by rewrite !decide_False.
Qed.

(** [run_on_schema_body], step by step. *)
Lemma run_on_schema_body_steps (name executor_codename : string) (command : CommandArg)
    (function_name : option string) (args : list Value)
    (pass_schema_in_kwargs fork_db : bool) (st : State Ext) :
  run_on_schema_body env NOTICE operation name executor_codename command function_name
    args pass_schema_in_kwargs fork_db st =
  match bind_command command st with
  | (s1, inl e) => (s1, inl e)
  | (s1, inr _) =>
      let s2 := (prepare_streams name executor_codename s1).1 in
      let s3 := if fork_db then set_trace (trace s2 ++ [EvCloseAll]) s2 else s2 in
      let s4 := set_trace (trace s3 ++ [EvResolve name]) s3 in
      match resolve_schema env name (ext s3) with
      | inl e => (s4, inl e)
      | inr schema =>
          let s5 := set_trace (trace s4 ++ [EvActivate schema])
                      (set_active (Some schema) s4) in
          let s6 := if pass_schema_in_kwargs
                    then set_kwargs (<["schema_name" := VStr name]> (the_kwargs s5)) s5
                    else s5 in
          match dispatch NOTICE operation function_name args s6 with
          | (s7, inl e) => (s7, inl e)
          | (s7, inr _) =>
              (if fork_db
               then set_trace ((trace s7 ++ [EvCommit]) ++ [EvClose]) (set_trace (trace s7 ++ [EvCommit]) s7)
               else s7, inr name)
          end
      end
  end.
Proof.
  unfold run_on_schema_body, bind at 1.
  destruct (bind_command command st) as [s1 [e|[]]]; [done|].
  unfold bind at 1.
  destruct (prepare_streams_spec name executor_codename s1) as (s2 & -> & _).
  simpl. unfold bind at 1.
  destruct fork_db; simpl.
  - unfold bind at 1, bind_schema; simpl.
    destruct (resolve_schema env name (ext s2)) as [e|schema]; [done|].
    unfold bind at 1, activate; simpl. unfold bind at 1, inject_schema_name.
    destruct pass_schema_in_kwargs; simpl; unfold bind at 1;
      match goal with |- context [dispatch _ _ _ _ ?s] =>
        destruct (dispatch NOTICE operation function_name args s) as [s7 [e|[]]] end;
      done.
  - unfold bind at 1, bind_schema; simpl.
    destruct (resolve_schema env name (ext s2)) as [e|schema]; [done|].
    unfold bind at 1, activate; simpl. unfold bind at 1, inject_schema_name.
    destruct pass_schema_in_kwargs; simpl; unfold bind at 1;
      match goal with |- context [dispatch _ _ _ _ ?s] =>
        destruct (dispatch NOTICE operation function_name args s) as [s7 [e|[]]] end;
      done.
Qed.

(** A task after its command is bound: the trace it adds, its result and
    the dict it leaves, as one of the courses. *)
Lemma run_on_schema_body_course (name executor_codename : string) (command : CommandArg)
    (function_name : option string) (args : list Value)
    (pass_schema_in_kwargs fork_db : bool) (s1 st : State Ext) :
  bind_command command st = (s1, inr tt) →
  ∃ st' r evs kw,
    run_on_schema_body env NOTICE operation name executor_codename command function_name
      args pass_schema_in_kwargs fork_db st = (st', r) ∧
    trace st' = trace st ++ closing fork_db ++ EvResolve name :: evs ∧
    the_kwargs st' = kw ∧
    course name function_name args pass_schema_in_kwargs fork_db
      (cmd_class (the_command s1)) (attrs (the_command s1))
      (without_streams (the_kwargs st))
      (resolve_schema env name (ext st)) evs r kw.
Proof.
  intros Hbind. rewrite run_on_schema_body_steps, Hbind.
  assert (trace s1 = trace st ∧ ext s1 = ext st ∧ the_kwargs s1 = the_kwargs st)
    as (Ht1 & He1 & Hk1).
  { destruct command; simpl in Hbind; [by injection Hbind as <- | | done].
    unfold instantiate in Hbind. simpl in Hbind. by injection Hbind as <-. }
  destruct (prepare_streams_spec name executor_codename s1)
    as (s2 & -> & Ht2 & Ha2 & He2 & Hk2 & Hc2 & Hb2).
  simpl.
  set (s3 := if fork_db then set_trace (trace s2 ++ [EvCloseAll]) s2 else s2).
  assert (trace s3 = trace st ++ closing fork_db ∧ ext s3 = ext st ∧
          the_kwargs s3 = without_streams (the_kwargs st) ∧
          the_command s3 = the_command s2) as (Ht3 & He3 & Hk3 & Hc3).
  { subst s3. destruct fork_db; simpl; rewrite ?Ht2, ?He2, ?Hk2, ?Ht1, ?He1, ?Hk1;
      by rewrite ?app_nil_r. }
  rewrite He3.
  destruct (resolve_schema env name (ext st)) as [e|schema].
  { eexists _, _, [], _. split; [done|]. simpl. rewrite Ht3, Hk3.
    repeat split; [by rewrite <- app_assoc | constructor]. }
  set (s5 := set_trace _ (set_active _ _)).
  set (s6 := if pass_schema_in_kwargs then _ else s5).
  assert (trace s6 = trace st ++ closing fork_db ++ [EvResolve name; EvActivate schema] ∧
          the_kwargs s6 = injected pass_schema_in_kwargs name (without_streams (the_kwargs st)) ∧
          the_command s6 = the_command s2) as (Ht6 & Hk6 & Hc6).
  { subst s6 s5. destruct pass_schema_in_kwargs; simpl; rewrite Ht3, Hk3, Hc3;
      by rewrite <- !app_assoc. }
  pose proof (dispatch_spec function_name args s6) as Hd.
  destruct function_name as [f|].
  - destruct (invoke_spec (if decide (f = "special:call_command")
           then CallCommand (the_command s6) args (the_kwargs s6)
           else if decide (f = "special:run_from_argv")
                then RunFromArgv (the_command s6) args
                else MethodCall (the_command s6) f args (the_kwargs s6)) s6)
      as (s7 & Hi & Ht7 & Hk7 & _).
    rewrite Hd, Hi. fold (call_for f (the_command s6) args (the_kwargs s6)) in *.
    rewrite Ht6, Hk6 in *.
    destruct (raised _) as [e|].
    + eexists _, _, _, _. split; [done|]. rewrite Ht7, Hk7.
      repeat split; [by rewrite <- !app_assoc|].
      apply course_raised; [done | by rewrite Hc6, Hc2 | by rewrite Hc6, Hb2].
    + eexists _, _,
        ([EvActivate schema;
          EvInvoke (call_for f (the_command s6) args
                      (injected pass_schema_in_kwargs name
                         (without_streams (the_kwargs st))))]
         ++ finishing fork_db), _.
      split; [done|]. split; [|split; [reflexivity|]].
      * destruct fork_db; simpl; rewrite Ht7; simpl; by rewrite <- !app_assoc.
      * assert (the_kwargs (if fork_db
             then set_trace ((trace s7 ++ [EvCommit]) ++ [EvClose])
                    (set_trace (trace s7 ++ [EvCommit]) s7)
             else s7) = the_kwargs s7) as -> by by destruct fork_db.
        rewrite Hk7.
        apply course_returned; [done | by rewrite Hc6, Hc2 | by rewrite Hc6, Hb2].
  - rewrite Hd. eexists _, _, [EvActivate schema], _. split; [done|].
    rewrite Ht6, Hk6. split; [done|]. split; [reflexivity|].
    by apply course_no_function.
Qed.

(** The class and the attributes of the command a task works with. *)
Lemma bind_command_spec (command : CommandArg) (st : State Ext) :
  match command with
  | Metaclass => bind_command command st = (st, inl (TypeError "type() takes 1 or 3 arguments"))
  | Instance => bind_command command st = (st, inr tt)
  | Class cls =>
      ∃ s1, bind_command command st = (s1, inr tt) ∧
            cmd_class (the_command s1) = cls ∧ attrs (the_command s1) = class_attrs cls
  end.
Proof.
  destruct command as [|cls|]; simpl; [done | | done].
  unfold instantiate. simpl. by eexists.
Qed.

(** [run_on_schema] as a whole: the trace it adds, its result, and the
    caller's dict afterwards. *)
Lemma run_on_schema_course (name executor_codename : string) (command : CommandArg)
    (function_name : option string) (args : option (list Value)) (kwargs : KwargsArg)
    (pass_schema_in_kwargs fork_db : bool) (st : State Ext) :
  ∃ st' r,
    run_on_schema env NOTICE operation name executor_codename command function_name
      args kwargs pass_schema_in_kwargs fork_db st = (st', r) ∧
    match command with
    | Metaclass =>
        trace st' = trace st ++ [EvTask name] ∧
        r = inl (TypeError "type() takes 1 or 3 arguments") ∧
        the_kwargs st' = the_kwargs st
    | _ =>
        ∃ evs kw,
          trace st' = trace st ++ EvTask name :: closing fork_db ++ EvResolve name :: evs ∧
          the_kwargs st' = match kwargs with
                           | KwargsNone => the_kwargs st
                           | KwargsDict => kw
                           end ∧
          course name function_name (default [] args) pass_schema_in_kwargs fork_db
            (match command with
             | Class cls => cls
             | _ => cmd_class (the_command st)
             end)
            (match command with
             | Class cls => class_attrs cls
             | _ => attrs (the_command st)
             end)
            (without_streams (match kwargs with
                              | KwargsNone => ∅
                              | KwargsDict => the_kwargs st
                              end))
            (resolve_schema env name (ext st)) evs r kw
    end.
Proof.
  unfold run_on_schema.
  set (st0 := match kwargs with
              | KwargsNone => set_kwargs ∅ st
              | KwargsDict => st
              end).
  set (sA := set_trace (trace st0 ++ [EvTask name]) st0).
  assert (trace sA = trace st ++ [EvTask name] ∧ ext sA = ext st ∧
          the_command sA = the_command st ∧
          the_kwargs sA = match kwargs with
                          | KwargsNone => ∅
                          | KwargsDict => the_kwargs st
                          end) as (HtA & HeA & HcA & HkA).
  { subst sA st0. by destruct kwargs. }
  pose proof (bind_command_spec command sA) as Hb.
  destruct command as [|cls|].
  - destruct (run_on_schema_body_course name executor_codename Instance function_name
                (default [] args) pass_schema_in_kwargs fork_db sA sA Hb)
      as (st' & r & evs & kw & -> & Ht & Hk & Hcourse).
    eexists _, _. split; [done|]. exists evs, kw.
    rewrite HtA, HeA, HcA, HkA in *.
    split; [by destruct kwargs; simpl; rewrite Ht, <- app_assoc|].
    split; [by destruct kwargs|done].
  - destruct Hb as (s1 & Hb & Hcls & Hattrs).
    destruct (run_on_schema_body_course name executor_codename (Class cls) function_name
                (default [] args) pass_schema_in_kwargs fork_db s1 sA Hb)
      as (st' & r & evs & kw & -> & Ht & Hk & Hcourse).
    eexists _, _. split; [done|]. exists evs, kw.
    rewrite HtA, HeA, HkA, Hcls, Hattrs in *.
    split; [by destruct kwargs; simpl; rewrite Ht, <- app_assoc|].
    split; [by destruct kwargs|done].
  - rewrite run_on_schema_body_steps, Hb.
    eexists _, _. split; [done|].
    by destruct kwargs.
Qed.

(** *** Sequential mode *)

Lemma tasks_of_app (t1 t2 : list Event) : tasks_of (t1 ++ t2) = tasks_of t1 ++ tasks_of t2.
Proof. apply omap_app. Qed.

Lemma course_tasks name function_name args pass_schema_in_kwargs fork_db cls bound
    kwargs resolved evs r kw :
  course name function_name args pass_schema_in_kwargs fork_db cls bound kwargs
    resolved evs r kw →
  tasks_of evs = [].
Proof. destruct 1; try done. by destruct fork_db. Qed.

(** A task logs its own start and no other. *)
Lemma run_on_schema_tasks (name executor_codename : string) (command : CommandArg)
    (function_name : option string) (args : option (list Value)) (kwargs : KwargsArg)
    (pass_schema_in_kwargs fork_db : bool) (st : State Ext) :
  tasks_of (trace (run_on_schema env NOTICE operation name executor_codename command
                     function_name args kwargs pass_schema_in_kwargs fork_db st).1)
  = tasks_of (trace st) ++ [name].
Proof.
  destruct (run_on_schema_course name executor_codename command function_name args
              kwargs pass_schema_in_kwargs fork_db st) as (st' & r & -> & H).
  simpl. destruct command.
  1,2: destruct H as (evs & kw & -> & _ & Hcourse);
       apply course_tasks in Hcourse;
       rewrite tasks_of_app; f_equal; simpl;
       rewrite tasks_of_app; simpl; rewrite Hcourse;
       by destruct fork_db.
  destruct H as (-> & _). by rewrite tasks_of_app.
Qed.

(** The loop of [sequential]: either every task returned, one after the
    other, or the loop stopped at the first task that raised. *)
Lemma for_each_outcome (runner : string -> State Ext -> State Ext * (Exn + string))
    (schemas : list string) (st : State Ext) :
  (∀ name s, tasks_of (trace (runner name s).1) = tasks_of (trace s) ++ [name]) →
  ∃ st' r, for_each runner schemas st = (st', r) ∧
    match r with
    | inr _ =>
        all_succeed runner schemas st ∧
        tasks_of (trace st') = tasks_of (trace st) ++ schemas
    | inl e =>
        ∃ before failed after st1,
          schemas = before ++ failed :: after ∧
          for_each runner before st = (st1, inr tt) ∧
          runner failed st1 = (st', inl e) ∧
          tasks_of (trace st') = tasks_of (trace st) ++ before ++ [failed]
    end.
Proof.
  intros Hrunner. revert st.
  induction schemas as [|name schemas IH]; intros st.
  { eexists _, _. split; [done|]. simpl. by rewrite app_nil_r. }
  simpl. unfold bind at 1. pose proof (Hrunner name st) as Hname.
  destruct (runner name st) as [s1 [e|token]] eqn:Hrun; simpl in Hname.
  - eexists _, _. split; [done|].
    exists [], name, schemas, st. by repeat split.
  - destruct (IH s1) as (st' & r & -> & Hrest).
    eexists _, _. split; [done|].
    destruct r as [e|[]].
    + destruct Hrest as (before & failed & after & s2 & -> & Hbefore & Hfailed & Htasks).
      exists (name :: before), failed, after, s2. repeat split; [| done |].
      * simpl. unfold bind at 1. by rewrite Hrun.
      * by rewrite Htasks, Hname, <- !app_assoc.
    + destruct Hrest as (Hall & Htasks). split; [done|].
      by rewrite Htasks, Hname, <- app_assoc.
Qed.

(** C4. In sequential mode the tasks are started in the order of the input,
    each after the one before it has returned. If a task raises, the run
    ends there: the identifiers before it have had their task, none after it
    has been started, and its exception is what [sequential] raises. *)
Theorem sequential_in_order_until_failure (schemas : list string) (command : CommandArg)
    (function_name : option string) (args : option (list Value)) (kwargs : KwargsArg)
    (pass_schema_in_kwargs : bool) (st : State Ext) :
  ∃ st' r,
    sequential env NOTICE operation HAS_TQDM schemas command function_name args kwargs
      pass_schema_in_kwargs st = (st', r) ∧
    match r with
    | inr returned =>
        returned = schemas ∧
        all_succeed (sequential_runner env NOTICE operation command function_name args
                       kwargs pass_schema_in_kwargs) schemas st ∧
        tasks_of (trace st') = tasks_of (trace st) ++ schemas
    | inl e =>
        ∃ before failed after st1,
          schemas = before ++ failed :: after ∧
          for_each (sequential_runner env NOTICE operation command function_name args
                      kwargs pass_schema_in_kwargs) before st = (st1, inr tt) ∧
          sequential_runner env NOTICE operation command function_name args kwargs
            pass_schema_in_kwargs failed st1 = (st', inl e) ∧
          tasks_of (trace st') = tasks_of (trace st) ++ before ++ [failed]
    end.
Proof.
  set (runner := sequential_runner env NOTICE operation command function_name args
                   kwargs pass_schema_in_kwargs).
  unfold sequential. fold runner.
  assert ((if HAS_TQDM then for_each runner (tqdm schemas) else for_each runner schemas)
          = for_each runner schemas) as -> by by destruct HAS_TQDM.
  destruct (for_each_outcome runner schemas st) as (st' & r & Hloop & Hr).
  { intros name s. apply run_on_schema_tasks. }
  unfold bind. rewrite Hloop.
  destruct r as [e|[]]; eexists _, _; (split; [done|]); [done|].
  by destruct Hr.
Qed.

(** *** Connections *)

Lemma course_connections name function_name args pass_schema_in_kwargs cls bound
    kwargs resolved evs r kw :
  course name function_name args pass_schema_in_kwargs false cls bound kwargs
    resolved evs r kw →
  Forall (λ e, connection_event e = false) evs.
Proof.
  destruct 1; repeat constructor.
Qed.

(** A task of the sequential runner adds no connection event to the trace. *)
Lemma sequential_runner_connections (command : CommandArg) (function_name : option string)
    (args : option (list Value)) (kwargs : KwargsArg) (pass_schema_in_kwargs : bool)
    (name : string) (st : State Ext) :
  ∃ evs,
    trace (sequential_runner env NOTICE operation command function_name args kwargs
             pass_schema_in_kwargs name st).1 = trace st ++ evs ∧
    Forall (λ e, connection_event e = false) evs.
Proof.
  unfold sequential_runner.
  destruct (run_on_schema_course name "sequential" command function_name args
              kwargs pass_schema_in_kwargs false st) as (st' & r & -> & H).
  simpl. destruct command.
  1,2: destruct H as (evs & kw & -> & _ & Hcourse);
       apply course_connections in Hcourse;
       eexists; (split; [done|]); by repeat constructor.
  destruct H as (-> & _). eexists. split; [done|]. by repeat constructor.
Qed.

Lemma for_each_trace (P : Event -> Prop)
    (runner : string -> State Ext -> State Ext * (Exn + string))
    (schemas : list string) (st : State Ext) :
  (∀ name s, ∃ evs, trace (runner name s).1 = trace s ++ evs ∧ Forall P evs) →
  ∃ evs, trace (for_each runner schemas st).1 = trace st ++ evs ∧ Forall P evs.
Proof.
  intros Hrunner. revert st.
  induction schemas as [|name schemas IH]; intros st; simpl.
  { exists []. by rewrite app_nil_r. }
  unfold bind at 1. destruct (Hrunner name st) as (evs1 & Ht1 & HP1).
  destruct (runner name st) as [s1 [e|token]]; simpl in Ht1.
  - by exists evs1.
  - destruct (IH s1) as (evs2 & Ht2 & HP2).
    exists (evs1 ++ evs2). rewrite Ht2, Ht1, <- app_assoc.
    split; [done|]. by apply Forall_app.
Qed.

(** C5. A task of the parallel runner first closes every connection, before
    it resolves its schema, and when the operation has returned it commits
    and closes the connection, last of all, before handing back the schema
    name; a task that raises does neither. A sequential run performs none of
    the three connection operations. *)
Theorem connections_by_mode (schemas : list string) (command : CommandArg)
    (function_name : option string) (args : option (list Value)) (kwargs : KwargsArg)
    (pass_schema_in_kwargs : bool) (st : State Ext) :
  (∀ (name : string) (worker : State Ext),
     ∃ worker' r rest,
       parallel_runner env NOTICE operation (type_of Instance st) function_name args
         kwargs pass_schema_in_kwargs name worker = (worker', r) ∧
       trace worker' =
         trace worker ++ EvTask name :: EvCloseAll :: EvResolve name :: rest ∧
       match r with
       | inr token =>
           token = name ∧
           ∃ schema inv, rest = [EvActivate schema; EvInvoke inv; EvCommit; EvClose]
       | inl _ => Forall (λ e, connection_event e = false) rest
       end) ∧
  (∃ evs,
     trace (sequential env NOTICE operation HAS_TQDM schemas command function_name
              args kwargs pass_schema_in_kwargs st).1 = trace st ++ evs ∧
     Forall (λ e, connection_event e = false) evs).
Proof.
  split.
  - intros name worker. unfold parallel_runner, type_of.
    destruct (run_on_schema_course name "parallel" (Class (cmd_class (the_command st)))
                function_name args kwargs pass_schema_in_kwargs true worker)
      as (worker' & r & -> & evs & kw & Ht & _ & Hcourse).
    exists worker', r, evs. split; [done|]. split; [done|].
    destruct Hcourse; simpl; try by repeat constructor.
    split; [done|]. by eexists _, _.
  - unfold sequential.
    assert ((if HAS_TQDM
             then for_each (sequential_runner env NOTICE operation command function_name
                              args kwargs pass_schema_in_kwargs) (tqdm schemas)
             else for_each (sequential_runner env NOTICE operation command function_name
                              args kwargs pass_schema_in_kwargs) schemas)
            = for_each (sequential_runner env NOTICE operation command function_name
                          args kwargs pass_schema_in_kwargs) schemas) as ->
      by by destruct HAS_TQDM.
    destruct (for_each_trace (λ e, connection_event e = false)
                (sequential_runner env NOTICE operation command function_name args
                   kwargs pass_schema_in_kwargs) schemas st) as (evs & Ht & Hevs).
    { intros name s. apply sequential_runner_connections. }
    exists evs. split; [|done].
    unfold bind. by destruct (for_each _ _ _) as [s' [e|[]]].
Qed.

(** *** Passing the schema name *)

Lemma invocations_of_app (t1 t2 : list Event) :
  invocations_of (t1 ++ t2) = invocations_of t1 ++ invocations_of t2.
Proof. apply omap_app. Qed.

Lemma invocations_of_closing (fork_db : bool) : invocations_of (closing fork_db) = [].
Proof. by destruct fork_db. Qed.

Lemma invocations_of_finishing (fork_db : bool) : invocations_of (finishing fork_db) = [].
Proof. by destruct fork_db. Qed.

Lemma named_arguments_call_for (f : string) (command : Command) (args : list Value)
    (kwargs : gmap string Value) :
  named_arguments (call_for f command args kwargs) =
    if decide (f = "special:run_from_argv") then ∅ else kwargs.
Proof.
  unfold call_for.
  destruct (decide (f = "special:call_command")) as [->|]; [done|].
  by destruct (decide (f = "special:run_from_argv")).
Qed.

Lemma course_invocations name f args fork_db cls bound kwargs resolved evs r kw :
  course name (Some f) args true fork_db cls bound kwargs resolved evs r kw →
  match resolved with
  | inl _ => invocations_of evs = []
  | inr _ =>
      ∃ instance, invocations_of evs = [call_for f instance args kw] ∧
                  kw !! "schema_name" = Some (VStr name)
  end.
Proof.
  destruct 1 as [e | schema Hf | schema g instance e Hf _ _ | schema g instance Hf _ _];
    [done | done | |]; injection Hf as <-.
  - exists instance. split; [done|]. apply lookup_insert_eq.
  - exists instance. split; [|apply lookup_insert_eq].
    by rewrite invocations_of_app, invocations_of_finishing.
Qed.

(** C7. With the schema name to be passed and a function name given, a task
    whose command is bound and whose schema is resolved makes exactly one
    call, the one that lines 92-97 pick for the function name, and any other
    task makes none. The dict in use has the schema name under "schema_name"
    by then; the operation receives it as a named argument in a
    [call_command] and in a direct method call, while an argv call hands
    over the tokens and no named argument at all. *)
Theorem schema_name_passed (name executor_codename : string) (command : CommandArg)
    (f : string) (args : option (list Value)) (kwargs : KwargsArg) (fork_db : bool)
    (st : State Ext) :
  ∃ st' r evs,
    run_on_schema env NOTICE operation name executor_codename command (Some f) args
      kwargs true fork_db st = (st', r) ∧
    trace st' = trace st ++ evs ∧
    (command = Metaclass ∨ (∃ e, resolve_schema env name (ext st) = inl e) →
       invocations_of evs = []) ∧
    (command ≠ Metaclass → ∀ schema, resolve_schema env name (ext st) = inr schema →
       ∃ instance kw,
         invocations_of evs = [call_for f instance (default [] args) kw] ∧
         kw !! "schema_name" = Some (VStr name) ∧
         (kwargs = KwargsDict → the_kwargs st' = kw)) ∧
    (∀ inv, inv ∈ invocations_of evs →
       named_arguments inv !! "schema_name" =
         if decide (f = "special:run_from_argv") then None else Some (VStr name)).
Proof.
  destruct (run_on_schema_course name executor_codename command (Some f) args kwargs
              true fork_db st) as (st' & r & -> & H).
  destruct command as [|cls|].
  1,2: destruct H as (evs & kw & Ht & Hk & Hcourse%course_invocations);
       exists st', r, (EvTask name :: closing fork_db ++ EvResolve name :: evs);
       (split; [done|]); (split; [done|]);
       assert (invocations_of (EvTask name :: closing fork_db ++ EvResolve name :: evs)
               = invocations_of evs) as ->
         by (simpl; by rewrite invocations_of_app, invocations_of_closing);
       destruct (resolve_schema env name (ext st)) as [e|schema];
       [ rewrite Hcourse; split; [done | split];
         [intros _ schema' [=] | by intros inv ?%elem_of_nil]
       | destruct Hcourse as (instance & -> & Hkw); split; [|split];
         [ by intros [[=] | [e' [=]]]
         | intros _ schema' _; exists instance, kw;
           split; [done | split; [done | by intros ->; rewrite Hk]]
         | intros inv ->%list_elem_of_singleton;
           rewrite named_arguments_call_for; by case_decide ] ].
  destruct H as (Ht & _ & _). exists st', r, [EvTask name].
  split; [done|]. split; [done|]. split; [done|].
  split; [by intros [] | by intros inv ?%elem_of_nil].
Qed.

(** *** The caller's dict *)

Lemma kwargs_kept_refl (pass_schema_in_kwargs : bool) (kw : gmap string Value) :
  kwargs_kept pass_schema_in_kwargs kw kw.
Proof. by intros key _ _ _. Qed.

Lemma kwargs_kept_trans (pass_schema_in_kwargs : bool) (kw1 kw2 kw3 : gmap string Value) :
  kwargs_kept pass_schema_in_kwargs kw1 kw2 →
  kwargs_kept pass_schema_in_kwargs kw2 kw3 →
  kwargs_kept pass_schema_in_kwargs kw1 kw3.
Proof. intros H12 H23 key ? ? ?. by rewrite H23, H12. Qed.

Lemma kwargs_kept_without_streams (pass_schema_in_kwargs : bool) (kw : gmap string Value) :
  kwargs_kept pass_schema_in_kwargs kw (without_streams kw).
Proof.
  intros key ? ? _. unfold without_streams. by rewrite !lookup_delete_ne.
Qed.

Lemma kwargs_kept_injected (pass_schema_in_kwargs : bool) (name : string)
    (kw : gmap string Value) :
  kwargs_kept pass_schema_in_kwargs kw (injected pass_schema_in_kwargs name kw).
Proof.
  intros key _ _ Hkey. unfold injected.
  destruct pass_schema_in_kwargs; [|done].
  destruct Hkey as [|Hkey]; [done|]. by rewrite lookup_insert_ne.
Qed.

Lemma course_kwargs name function_name args pass_schema_in_kwargs fork_db cls bound
    kwargs resolved evs r kw :
  course name function_name args pass_schema_in_kwargs fork_db cls bound kwargs
    resolved evs r kw →
  kw = kwargs ∨ kw = injected pass_schema_in_kwargs name kwargs.
Proof. destruct 1; auto. Qed.

Lemma injected_streams (pass_schema_in_kwargs : bool) (name : string)
    (kw : gmap string Value) :
  injected pass_schema_in_kwargs name (without_streams kw) !! "stdout" = None ∧
  injected pass_schema_in_kwargs name (without_streams kw) !! "stderr" = None.
Proof.
  unfold injected, without_streams. destruct pass_schema_in_kwargs.
  - rewrite !lookup_insert_ne by done.
    by rewrite lookup_delete_eq, lookup_delete_ne, lookup_delete_eq.
  - by rewrite lookup_delete_eq, lookup_delete_ne, lookup_delete_eq.
Qed.

(** What one task does to the caller's dict. *)
Lemma run_on_schema_kwargs (name executor_codename : string) (command : CommandArg)
    (function_name : option string) (args : option (list Value)) (kwargs : KwargsArg)
    (pass_schema_in_kwargs fork_db : bool) (st : State Ext) :
  let st' := (run_on_schema env NOTICE operation name executor_codename command
                function_name args kwargs pass_schema_in_kwargs fork_db st).1 in
  kwargs_kept pass_schema_in_kwargs (the_kwargs st) (the_kwargs st') ∧
  (kwargs = KwargsNone → the_kwargs st' = the_kwargs st) ∧
  (kwargs = KwargsDict → command ≠ Metaclass →
     the_kwargs st' !! "stdout" = None ∧ the_kwargs st' !! "stderr" = None).
Proof.
  destruct (run_on_schema_course name executor_codename command function_name args
              kwargs pass_schema_in_kwargs fork_db st) as (st' & r & -> & H).
  simpl.
  assert (command = Metaclass ∧ the_kwargs st' = the_kwargs st ∨
          command ≠ Metaclass ∧ ∃ kw,
            the_kwargs st' = match kwargs with
                             | KwargsNone => the_kwargs st
                             | KwargsDict => kw
                             end ∧
            (kw = without_streams match kwargs with
                                  | KwargsNone => ∅
                                  | KwargsDict => the_kwargs st
                                  end ∨
             kw = injected pass_schema_in_kwargs name
                    (without_streams match kwargs with
                                     | KwargsNone => ∅
                                     | KwargsDict => the_kwargs st
                                     end))) as [[-> Hk] | [Hcmd (kw & Hk & Hkw)]].
  { destruct command.
    1,2: right; (split; [done|]);
         destruct H as (evs & kw & _ & Hk & Hcourse%course_kwargs); by exists kw.
    left. by destruct H as (_ & _ & ?). }
  - rewrite Hk. split; [apply kwargs_kept_refl|]. by split.
  - rewrite Hk. destruct kwargs.
    { split; [apply kwargs_kept_refl|]. by split. }
    split; [|split; [done|]].
    + destruct Hkw as [-> | ->].
      * apply kwargs_kept_without_streams.
      * eapply kwargs_kept_trans;
          [apply kwargs_kept_without_streams | apply kwargs_kept_injected].
    + intros _ _. destruct Hkw as [-> | ->].
      * apply (injected_streams false name).
      * apply injected_streams.
Qed.

Lemma for_each_invariant (R : State Ext -> State Ext -> Prop)
    (runner : string -> State Ext -> State Ext * (Exn + string))
    (schemas : list string) (st : State Ext) :
  (∀ s, R s s) → (∀ s1 s2 s3, R s1 s2 → R s2 s3 → R s1 s3) →
  (∀ name s, R s (runner name s).1) →
  R st (for_each runner schemas st).1.
Proof.
  intros Hrefl Htrans Hrunner. revert st.
  induction schemas as [|name schemas IH]; intros st; simpl; [done|].
  unfold bind at 1. pose proof (Hrunner name st) as H1.
  destruct (runner name st) as [s1 [e|token]]; simpl in H1; [done|].
  eapply Htrans; [done | apply IH].
Qed.

Lemma for_each_last (P : State Ext -> Prop)
    (runner : string -> State Ext -> State Ext * (Exn + string))
    (schemas : list string) (st : State Ext) :
  schemas ≠ [] → (∀ name s, P (runner name s).1) →
  P (for_each runner schemas st).1.
Proof.
  intros Hne Hrunner. revert st Hne.
  induction schemas as [|name schemas IH]; intros st Hne; [done|].
  simpl. unfold bind at 1. pose proof (Hrunner name st) as H1.
  destruct (runner name st) as [s1 [e|token]]; simpl in H1; [done|].
  destruct schemas as [|name' schemas]; [done|]. by apply IH.
Qed.

Lemma sequential_loop (schemas : list string) (command : CommandArg)
    (function_name : option string) (args : option (list Value)) (kwargs : KwargsArg)
    (pass_schema_in_kwargs : bool) (st : State Ext) :
  sequential env NOTICE operation HAS_TQDM schemas command function_name args kwargs
    pass_schema_in_kwargs st =
  let '(st', r) := for_each (sequential_runner env NOTICE operation command function_name
                               args kwargs pass_schema_in_kwargs) schemas st in
  (st', match r with
        | inl e => inl e
        | inr _ => inr schemas
        end).
Proof.
  unfold sequential, tqdm, bind.
  destruct HAS_TQDM; by destruct (for_each _ _ _) as [st' [e|[]]].
Qed.

Lemma course_resolved_kwargs name function_name args fork_db cls bound kwargs resolved
    evs r kw schema :
  course name function_name args true fork_db cls bound kwargs resolved evs r kw →
  resolved = inr schema →
  kw !! "schema_name" = Some (VStr name).
Proof. destruct 1; intros [=]; apply lookup_insert_eq. Qed.

(** C8. After a sequential run, finished or failed, the caller's dict still
    has every entry under its key with its value, and no new key, except
    that the tasks take "stdout" and "stderr" out of it and, when the schema
    name is passed, each task whose schema resolves writes "schema_name"
    into it; a run given no dict leaves the caller's state without any
    change to a dict. The sequence of identifiers is what a finished run
    returns. A parallel run leaves the caller's dict as it was, its tasks
    working on copies. *)
Theorem request_after_run (schemas : list string) (command : CommandArg)
    (function_name : option string) (args : option (list Value)) (kwargs : KwargsArg)
    (pass_schema_in_kwargs : bool) (st : State Ext) :
  (∃ st' r,
     sequential env NOTICE operation HAS_TQDM schemas command function_name args kwargs
       pass_schema_in_kwargs st = (st', r) ∧
     kwargs_kept pass_schema_in_kwargs (the_kwargs st) (the_kwargs st') ∧
     (kwargs = KwargsNone → the_kwargs st' = the_kwargs st) ∧
     (kwargs = KwargsDict → command ≠ Metaclass → schemas ≠ [] →
        the_kwargs st' !! "stdout" = None ∧ the_kwargs st' !! "stderr" = None) ∧
     (∀ returned, r = inr returned → returned = schemas)) ∧
  (∀ name s schema,
     kwargs = KwargsDict → command ≠ Metaclass → pass_schema_in_kwargs = true →
     resolve_schema env name (ext s) = inr schema →
     the_kwargs (sequential_runner env NOTICE operation command function_name args
                   kwargs pass_schema_in_kwargs name s).1 !! "schema_name" =
       Some (VStr name)) ∧
  (∀ schedule,
     the_kwargs (parallel env NOTICE operation HAS_TQDM HAS_CONFIGURATIONS schedule
                   schemas command function_name args kwargs pass_schema_in_kwargs
                   st).1 = the_kwargs st).
Proof.
  split; [|split; [|done]].
  2:{ intros name s schema -> Hcmd -> Hres. unfold sequential_runner.
      destruct (run_on_schema_course name "sequential" command function_name args
                  KwargsDict true false s) as (s' & r & -> & H).
      simpl. destruct command; [| |done];
        destruct H as (evs & kw & _ & -> & Hcourse);
        by eapply course_resolved_kwargs. }
  rewrite sequential_loop.
  set (runner := sequential_runner env NOTICE operation command function_name args
                   kwargs pass_schema_in_kwargs).
  pose proof (for_each_invariant
                (λ s s', kwargs_kept pass_schema_in_kwargs (the_kwargs s) (the_kwargs s'))
                runner schemas st) as Hkept.
  pose proof (for_each_invariant (λ s s', kwargs = KwargsNone → the_kwargs s' = the_kwargs s)
                runner schemas st) as Hnone.
  pose proof (for_each_last
                (λ s', kwargs = KwargsDict → command ≠ Metaclass →
                       the_kwargs s' !! "stdout" = None ∧ the_kwargs s' !! "stderr" = None)
                runner schemas st) as Hstreams.
  destruct (for_each runner schemas st) as [st' r]. simpl in *.
  eexists _, _. split; [done|]. split; [|split; [|split]].
  - apply Hkept.
    + intros s. apply kwargs_kept_refl.
    + intros s1 s2 s3. apply kwargs_kept_trans.
    + intros name s. apply run_on_schema_kwargs.
  - apply Hnone; [done | | ].
    + intros s1 s2 s3 H12 H23 Hkw. by rewrite H23, H12.
    + intros name s. apply run_on_schema_kwargs.
  - intros Hdict Hcmd Hne. apply Hstreams; [done | | done | done].
    intros name s. apply run_on_schema_kwargs.
  - intros returned. by destruct r as [e|[]]; intros [= <-].
Qed.

(** *** Parallel mode and the caller's command instance *)

(** Given a class, a task builds its own instance and never looks at the
    one in the state it starts from. *)
Lemma run_on_schema_body_class (name executor_codename : string) (cls : CommandClass)
    (function_name : option string) (args : list Value)
    (pass_schema_in_kwargs fork_db : bool) (custom : Command) (st : State Ext) :
  run_on_schema_body env NOTICE operation name executor_codename (Class cls)
    function_name args pass_schema_in_kwargs fork_db (set_command custom st) =
  run_on_schema_body env NOTICE operation name executor_codename (Class cls)
    function_name args pass_schema_in_kwargs fork_db st.
Proof. reflexivity. Qed.

Lemma run_on_schema_class (name executor_codename : string) (cls : CommandClass)
    (function_name : option string) (args : option (list Value)) (kwargs : KwargsArg)
    (pass_schema_in_kwargs fork_db : bool) (custom : Command) (st : State Ext) :
  run_on_schema env NOTICE operation name executor_codename (Class cls) function_name
    args kwargs pass_schema_in_kwargs fork_db (set_command custom st) =
  let '(st', r) := run_on_schema env NOTICE operation name executor_codename (Class cls)
                     function_name args kwargs pass_schema_in_kwargs fork_db st in
  (set_command custom st', r).
Proof.
  unfold run_on_schema. destruct kwargs.
  - change (set_trace (trace (set_kwargs ∅ (set_command custom st)) ++ [EvTask name])
              (set_kwargs ∅ (set_command custom st)))
      with (set_command custom
              (set_trace (trace (set_kwargs ∅ st) ++ [EvTask name]) (set_kwargs ∅ st))).
    rewrite run_on_schema_body_class.
    by destruct (run_on_schema_body _ _ _ _ _ _ _ _ _ _ _) as [st1 r].
  - change (set_trace (trace (set_command custom st) ++ [EvTask name])
              (set_command custom st))
      with (set_command custom (set_trace (trace st ++ [EvTask name]) st)).
    rewrite run_on_schema_body_class.
    by destruct (run_on_schema_body _ _ _ _ _ _ _ _ _ _ _) as [st1 r].
Qed.

(** Two pools that differ only in the copy of the caller's instance that
    their workers hold. *)
Lemma pool_run_class (runner : string -> State Ext -> State Ext * (Exn + string))
    (custom : Command) (kwargs0 : gmap string Value) (schemas : list string)
    (schedule : list (nat * nat)) (p1 p2 : Pool) :
  (∀ name w, runner name (set_command custom w) =
             let '(w', r) := runner name w in (set_command custom w', r)) →
  pool_ext p1 = pool_ext p2 → arrivals p1 = arrivals p2 →
  workers p1 = set_command custom <$> workers p2 →
  let q1 := pool_run runner kwargs0 schemas schedule p1 in
  let q2 := pool_run runner kwargs0 schemas schedule p2 in
  pool_ext q1 = pool_ext q2 ∧ arrivals q1 = arrivals q2 ∧
  workers q1 = set_command custom <$> workers q2.
Proof.
  intros Hrunner. unfold pool_run. revert p1 p2.
  induction schedule as [|[i k] schedule IH]; intros p1 p2 Hext Harr Hw; simpl; [done|].
  apply IH; unfold pool_step; simpl; destruct (schemas !! i) as [name|]; try done;
    rewrite Hw, list_lookup_fmap; destruct (workers p2 !! k) as [w|]; simpl; try done;
    change (set_kwargs kwargs0 (set_ext (pool_ext p1) (set_command custom w)))
      with (set_command custom (set_kwargs kwargs0 (set_ext (pool_ext p1) w)));
    rewrite Hrunner, Hext;
    destruct (runner name _) as [w' r]; simpl; try done.
  - by rewrite Harr.
  - by rewrite list_fmap_insert.
Qed.

Lemma course_commands name function_name args pass_schema_in_kwargs fork_db cls bound
    kwargs resolved evs r kw :
  course name function_name args pass_schema_in_kwargs fork_db cls bound kwargs
    resolved evs r kw →
  Forall (λ inv, cmd_class (command_of inv) = cls ∧ attrs (command_of inv) = bound)
         (invocations_of evs).
Proof.
  assert (∀ f instance a k, command_of (call_for f instance a k) = instance) as Hof.
  { intros f instance a k. unfold call_for. by repeat case_decide. }
  destruct 1; simpl; rewrite ?invocations_of_app, ?invocations_of_finishing; simpl;
    repeat constructor; by rewrite Hof.
Qed.

(** C6. A parallel run takes the class of the caller's command and nothing
    else of it: with another instance of the same class in the caller's
    hands, whatever its streams and attributes, the workers run the same
    tasks with the same results, write the same text and leave the same
    outside world, and [parallel] returns the same. Every call a worker
    makes is on an instance of that class with the attributes the class
    gives it. *)
Theorem parallel_ignores_caller_instance (schedule : list (nat * nat))
    (schemas : list string) (function_name : option string)
    (args : option (list Value)) (kwargs : KwargsArg) (pass_schema_in_kwargs : bool)
    (custom : Command) (st : State Ext) :
  cmd_class custom = cmd_class (the_command st) →
  (pool_ext (parallel_pool env NOTICE operation HAS_CONFIGURATIONS schedule schemas
               Instance function_name args kwargs pass_schema_in_kwargs
               (set_command custom st)) =
   pool_ext (parallel_pool env NOTICE operation HAS_CONFIGURATIONS schedule schemas
               Instance function_name args kwargs pass_schema_in_kwargs st) ∧
   arrivals (parallel_pool env NOTICE operation HAS_CONFIGURATIONS schedule schemas
               Instance function_name args kwargs pass_schema_in_kwargs
               (set_command custom st)) =
   arrivals (parallel_pool env NOTICE operation HAS_CONFIGURATIONS schedule schemas
               Instance function_name args kwargs pass_schema_in_kwargs st) ∧
   workers (parallel_pool env NOTICE operation HAS_CONFIGURATIONS schedule schemas
              Instance function_name args kwargs pass_schema_in_kwargs
              (set_command custom st)) =
   set_command custom <$>
     workers (parallel_pool env NOTICE operation HAS_CONFIGURATIONS schedule schemas
                Instance function_name args kwargs pass_schema_in_kwargs st)) ∧
  (parallel env NOTICE operation HAS_TQDM HAS_CONFIGURATIONS schedule schemas Instance
     function_name args kwargs pass_schema_in_kwargs (set_command custom st)).2 =
  (parallel env NOTICE operation HAS_TQDM HAS_CONFIGURATIONS schedule schemas Instance
     function_name args kwargs pass_schema_in_kwargs st).2 ∧
  (∀ (name : string) (worker : State Ext),
     ∃ evs,
       trace (parallel_runner env NOTICE operation (type_of Instance st) function_name
                args kwargs pass_schema_in_kwargs name worker).1 = trace worker ++ evs ∧
       Forall (λ inv, cmd_class (command_of inv) = cmd_class (the_command st) ∧
                      attrs (command_of inv) = class_attrs (cmd_class (the_command st)))
              (invocations_of evs)).
Proof.
  intros Hclass.
  set (pool_custom := parallel_pool env NOTICE operation HAS_CONFIGURATIONS schedule
                        schemas Instance function_name args kwargs
                        pass_schema_in_kwargs (set_command custom st)).
  set (pool := parallel_pool env NOTICE operation HAS_CONFIGURATIONS schedule schemas
                 Instance function_name args kwargs pass_schema_in_kwargs st).
  assert (pool_ext pool_custom = pool_ext pool ∧
          arrivals pool_custom = arrivals pool ∧
          workers pool_custom = set_command custom <$> workers pool) as Hpools.
  { subst pool_custom pool. unfold parallel_pool, type_of. simpl. rewrite Hclass.
    apply pool_run_class; simpl; try done.
    - intros name w. apply run_on_schema_class.
    - rewrite fmap_replicate. f_equal. unfold init_configurations.
      by destruct HAS_CONFIGURATIONS. }
  split; [done|]. split.
  - unfold parallel. fold pool_custom pool. simpl.
    destruct Hpools as (_ & -> & _). done.
  - intros name worker. unfold parallel_runner, type_of.
    destruct (run_on_schema_course name "parallel" (Class (cmd_class (the_command st)))
                function_name args kwargs pass_schema_in_kwargs true worker)
      as (worker' & r & -> & evs & kw & Ht & _ & Hcourse%course_commands).
    eexists. split; [exact Ht|]. exact Hcourse.
Qed.

(** *** The two streams of a command *)

Lemma bind_stdout_spec (st : State Ext) :
  let v := default (stdout (the_command st)) (the_kwargs st !! "stdout") in
  ∃ st' a,
    bind_stdout st = (st', inr tt) ∧
    stdout (the_command st') = VWrapper a ∧
    stderr (the_command st') = stderr (the_command st) ∧
    the_kwargs st' = delete "stdout" (the_kwargs st) ∧
    ((v = VWrapper a ∧ heap st' = heap st) ∨
     ((∀ b, v ≠ VWrapper b) ∧ a = length (heap st) ∧
      heap st' = heap st ++ [{| wrapped := v; style_func := Plain (λ x, x) |}])).
Proof.
  intros v. unfold bind_stdout. fold v.
  destruct v eqn:Hv; simpl; eexists _, _;
    (split; [reflexivity|]); simpl; repeat split; auto.
Qed.

Lemma bind_stderr_spec (st : State Ext) :
  let v := default (stderr (the_command st)) (the_kwargs st !! "stderr") in
  ∃ st' a,
    bind_stderr st = (st', inr tt) ∧
    stderr (the_command st') = VWrapper a ∧
    stdout (the_command st') = stdout (the_command st) ∧
    ((v = VWrapper a ∧ heap st' = heap st) ∨
     ((∀ b, v ≠ VWrapper b) ∧ a = length (heap st) ∧
      heap st' = heap st ++ [{| wrapped := v; style_func := Plain (λ x, x) |}])).
Proof.
  intros v. unfold bind_stderr. fold v.
  destruct v eqn:Hv; simpl; eexists _, _;
    (split; [reflexivity|]); simpl; repeat split; auto.
Qed.





(** *** What the executors return *)

Lemma course_token name function_name args pass_schema_in_kwargs fork_db cls bound
    kwargs resolved evs r kw :
  course name function_name args pass_schema_in_kwargs fork_db cls bound kwargs
    resolved evs r kw →
  ∀ token, r = inr token → token = name.
Proof. destruct 1; intros token [=]; done. Qed.

(** A task that returns hands back the name of its schema. *)
Lemma run_on_schema_token (name executor_codename : string) (command : CommandArg)
    (function_name : option string) (args : option (list Value)) (kwargs : KwargsArg)
    (pass_schema_in_kwargs fork_db : bool) (st st' : State Ext) (token : string) :
  run_on_schema env NOTICE operation name executor_codename command function_name args
    kwargs pass_schema_in_kwargs fork_db st = (st', inr token) →
  token = name.
Proof.
  destruct (run_on_schema_course name executor_codename command function_name args
              kwargs pass_schema_in_kwargs fork_db st) as (st1 & r & -> & H).
  intros [= -> ->]. destruct command.
  1,2: destruct H as (evs & kw & _ & _ & Hcourse); by eapply course_token.
  by destruct H as (_ & [=] & _).
Qed.

Lemma all_succeed_for_each (runner : string -> State Ext -> State Ext * (Exn + string))
    (schemas : list string) (st : State Ext) :
  all_succeed runner schemas st → (for_each runner schemas st).2 = inr tt.
Proof.
  revert st. induction schemas as [|name schemas IH]; intros st; simpl; [done|].
  unfold bind at 1. destruct (runner name st) as [s1 [e|token]]; [done|]. apply IH.
Qed.

(** Results stored by position, in whatever order they come. *)
Lemma foldl_insert_length {A B} (g : A -> B) (arrived : list (nat * A)) (acc : list B) :
  length (foldl (λ acc a, <[a.1 := g a.2]> acc) acc arrived) = length acc.
Proof.
  revert acc. induction arrived as [|a arrived IH]; intros acc; simpl; [done|].
  by rewrite IH, length_insert.
Qed.

Lemma foldl_insert_lookup {A B} (g : A -> B) (arrived : list (nat * A)) (acc : list B)
    (j : nat) :
  j < length acc → j ∈ arrived.*1 →
  ∃ x, (j, x) ∈ arrived ∧
       foldl (λ acc a, <[a.1 := g a.2]> acc) acc arrived !! j = Some (g x).
Proof.
  intros Hj. induction arrived as [|[i x] arrived IH] using rev_ind; intros Hin.
  { by apply elem_of_nil in Hin. }
  rewrite foldl_app. simpl.
  destruct (decide (i = j)) as [->|Hne].
  - exists x. split; [apply elem_of_app; right; by apply list_elem_of_singleton|].
    apply list_lookup_insert_eq. by rewrite foldl_insert_length.
  - rewrite fmap_app in Hin. apply elem_of_app in Hin as [Hin | Hin].
    + destruct (IH Hin) as (y & Hy & Hlookup). exists y.
      split; [apply elem_of_app; by left|].
      by rewrite list_lookup_insert_ne.
    + simpl in Hin. apply list_elem_of_singleton in Hin. done.
Qed.

(** What the pool has to show after a schedule that is sound. *)
Lemma pool_run_arrivals (runner : string -> State Ext -> State Ext * (Exn + string))
    (kwargs0 : gmap string Value) (schemas : list string)
    (schedule : list (nat * nat)) (p : Pool) :
  (∀ name w w' token, runner name w = (w', inr token) → token = name) →
  Forall (λ step, step.1 < length schemas ∧ step.2 < length (workers p)) schedule →
  Forall (λ a, ∀ token, a.2 = inr token → schemas !! a.1 = Some token) (arrivals p) →
  let q := pool_run runner kwargs0 schemas schedule p in
  (arrivals q).*1 = (arrivals p).*1 ++ schedule.*1 ∧
  Forall (λ a, ∀ token, a.2 = inr token → schemas !! a.1 = Some token) (arrivals q).
Proof.
  intros Hrunner. unfold pool_run. revert p.
  induction schedule as [|[i k] schedule IH]; intros p Hsched Harr; simpl.
  { by rewrite app_nil_r. }
  apply Forall_cons in Hsched as [[Hi Hk] Hsched]. simpl in Hi, Hk.
  destruct (lookup_lt_is_Some_2 schemas i Hi) as [name Hname].
  destruct (lookup_lt_is_Some_2 (workers p) k Hk) as [w Hw].
  destruct (runner name (set_kwargs kwargs0 (set_ext (pool_ext p) w)))
    as [w' r] eqn:Hrun.
  assert (pool_step runner kwargs0 schemas p (i, k) =
          {| pool_ext := ext w'; workers := <[k := w']> (workers p);
             arrivals := arrivals p ++ [(i, r)] |}) as ->.
  { unfold pool_step. simpl. by rewrite Hname, Hw, Hrun. }
  destruct (IH {| pool_ext := ext w'; workers := <[k := w']> (workers p);
                  arrivals := arrivals p ++ [(i, r)] |}) as (Hfst & Hall); simpl.
  - by rewrite length_insert.
  - apply Forall_app. split; [done|]. constructor; [|done]. simpl.
    intros token ->. apply Hrunner in Hrun as ->. done.
  - split; [|done]. rewrite Hfst. simpl. rewrite fmap_app. simpl.
    by rewrite <- app_assoc.
Qed.

Lemma imap_list_returned (schemas : list string) :
  imap_list ((λ name, Some (inr name)) <$> schemas) = Some (inr schemas).
Proof.
  induction schemas as [|name schemas IH]; [done|].
  rewrite fmap_cons. simpl. by rewrite IH.
Qed.

Lemma MapResult_all_returned (arrived : list (nat * (Exn + string)))
    (l : list (option string)) (left : nat) :
  Forall (λ a, ∃ token, a.2 = inr token) arrived →
  foldl MapResult_set {| mr_success := true; mr_value := inr l; mr_number_left := left |}
        arrived =
  {| mr_success := true;
     mr_value := inr (foldl (λ acc a, <[a.1 := match a.2 with
                                                | inr token => Some token
                                                | inl _ => None
                                                end]> acc) l arrived);
     mr_number_left := left - length arrived |}.
Proof.
  revert l left. induction arrived as [|[i r] arrived IH]; intros l left Hall; simpl.
  { by rewrite Nat.sub_0_r. }
  apply Forall_cons in Hall as [[token Htoken] Hall]. simpl in Htoken. subst r.
  unfold MapResult_set at 2. simpl. rewrite IH by done. f_equal. lia.
Qed.

(** Arrivals that cover every position once, all returned, each with the
    name of its task: both ways of collecting yield the input. *)
Lemma collected_in_input_order (schemas : list string)
    (arrived : list (nat * (Exn + string))) :
  arrived.*1 ≡ₚ seq 0 (length schemas) →
  Forall (λ a, ∃ token, a.2 = inr token) arrived →
  Forall (λ a, ∀ token, a.2 = inr token → schemas !! a.1 = Some token) arrived →
  pool_imap (length schemas) arrived = Some (inr schemas) ∧
  pool_map (length schemas) arrived = Some (inr schemas).
Proof.
  intros Hperm Hreturned Hnames.
  assert (∀ j, j < length schemas → j ∈ arrived.*1) as Hcover.
  { intros j Hj. rewrite Hperm. apply elem_of_seq. lia. }
  assert (∀ j x, (j, x) ∈ arrived → ∃ name, x = inr name ∧ schemas !! j = Some name)
    as Hentry.
  { intros j x Hin.
    rewrite Forall_forall in Hreturned. destruct (Hreturned _ Hin) as [name Hx].
    rewrite Forall_forall in Hnames. specialize (Hnames _ Hin name Hx).
    simpl in *. by exists name. }
  split.
  - unfold pool_imap.
    assert (foldl (λ acc (a : nat * (Exn + string)), <[a.1 := Some a.2]> acc)
                  (replicate (length schemas) None) arrived
            = (λ name, Some (inr name)) <$> schemas) as ->; [|apply imap_list_returned].
    apply list_eq. intros j. rewrite list_lookup_fmap.
    destruct (decide (j < length schemas)) as [Hj|Hj].
    + destruct (foldl_insert_lookup Some arrived (replicate (length schemas) None) j)
        as (x & Hin & ->); [by rewrite length_replicate | by apply Hcover |].
      destruct (Hentry j x Hin) as (name & -> & ->). done.
    + rewrite !lookup_ge_None_2; [done | lia |].
      rewrite (foldl_insert_length Some), length_replicate. lia.
  - unfold pool_map, MapResult_new.
    rewrite MapResult_all_returned by done.
    assert (foldl (λ acc (a : nat * (Exn + string)),
                     <[a.1 := match a.2 with
                              | inr token => Some token
                              | inl _ => None
                              end]> acc)
                  (replicate (length schemas) None) arrived
            = Some <$> schemas) as ->.
    { apply list_eq. intros j. rewrite list_lookup_fmap.
      destruct (decide (j < length schemas)) as [Hj|Hj].
      - destruct (foldl_insert_lookup
                    (λ r : Exn + string, match r with
                                         | inr token => Some token
                                         | inl _ => None
                                         end)
                    arrived (replicate (length schemas) None) j)
          as (x & Hin & ->); [by rewrite length_replicate | by apply Hcover |].
        destruct (Hentry j x Hin) as (name & -> & ->). done.
      - rewrite !lookup_ge_None_2; [done | lia |].
        rewrite (foldl_insert_length
                   (λ r : Exn + string, match r with
                                        | inr token => Some token
                                        | inl _ => None
                                        end)), length_replicate. lia. }
    unfold MapResult_get. simpl.
    assert (length arrived = length schemas) as ->.
    { rewrite <- (length_fmap fst arrived), Hperm. apply length_seq. }
    rewrite Nat.sub_diag. simpl.
    by rewrite mapM_fmap_Some.
Qed.

(** C10. When every task returns, both executors hand back the identifiers
    in the order of the input: [sequential] its input as it is, [parallel]
    the names its tasks returned, by position in the input, in whatever
    order and on whatever workers the tasks were run. *)
Theorem executors_return_input_order (schemas : list string) (command : CommandArg)
    (function_name : option string) (args : option (list Value)) (kwargs : KwargsArg)
    (pass_schema_in_kwargs : bool) (st : State Ext) :
  (all_succeed (sequential_runner env NOTICE operation command function_name args
                  kwargs pass_schema_in_kwargs) schemas st →
   (sequential env NOTICE operation HAS_TQDM schemas command function_name args kwargs
      pass_schema_in_kwargs st).2 = inr schemas) ∧
  (∀ schedule,
     valid_schedule (length schemas)
       (pool_size env (PGSCHEMAS_PARALLEL_MAX_PROCESSES (settings env))) schedule →
     Forall (λ a, ∃ token, a.2 = inr token)
       (arrivals (parallel_pool env NOTICE operation HAS_CONFIGURATIONS schedule schemas
                    command function_name args kwargs pass_schema_in_kwargs st)) →
     (parallel env NOTICE operation HAS_TQDM HAS_CONFIGURATIONS schedule schemas command
        function_name args kwargs pass_schema_in_kwargs st).2 = Some (inr schemas)).
Proof.
  split.
  - intros Hall%all_succeed_for_each. rewrite sequential_loop.
    destruct (for_each _ _ _) as [st' r]. simpl in *. by subst r.
  - intros schedule [Hperm Hworkers] Hreturned.
    unfold parallel. simpl. unfold tqdm.
    set (pool := parallel_pool _ _ _ _ _ _ _ _ _ _ _ _) in *.
    destruct (pool_run_arrivals
                (parallel_runner env NOTICE operation (type_of command st) function_name
                   args kwargs pass_schema_in_kwargs)
                (the_kwargs st) schemas schedule
                (Pool_new env (PGSCHEMAS_PARALLEL_MAX_PROCESSES (settings env))
                   (init_configurations HAS_CONFIGURATIONS) st))
      as (Hfst & Hnames).
    { intros name w w' token. apply run_on_schema_token. }
    { simpl. rewrite length_replicate.
      apply Forall_forall. intros step Hstep. split.
      - assert (step.1 ∈ seq 0 (length schemas)) as Hin%elem_of_seq; [|lia].
        rewrite <- Hperm. by apply list_elem_of_fmap_2.
      - rewrite Forall_forall in Hworkers. by apply Hworkers. }
    { constructor. }
    fold (parallel_pool env NOTICE operation HAS_CONFIGURATIONS schedule schemas command
            function_name args kwargs pass_schema_in_kwargs st) in Hfst, Hnames.
    fold pool in Hfst, Hnames. simpl in Hfst.
    destruct (collected_in_input_order schemas (arrivals pool)) as (Himap & Hmap);
      [by rewrite Hfst | done | done |].
    by destruct HAS_TQDM.
Qed.

(** *** What a task does to the world around it *)

Lemma activations_of_app (t1 t2 : list Event) :
  activations_of (t1 ++ t2) = activations_of t1 ++ activations_of t2.
Proof. apply omap_app. Qed.

Lemma prepare_streams_written (name executor_codename : string) (st : State Ext) :
  written (prepare_streams name executor_codename st).1 = written st.
Proof.
  unfold prepare_streams, bind, bind_stdout, bind_stderr, install_style_funcs.
  destruct (default (stdout (the_command st)) (the_kwargs st !! "stdout")); simpl;
    match goal with
    | |- context [default ?d ?o] => destruct (default d o)
    end; reflexivity.
Qed.

Lemma bind_command_world (command : CommandArg) (s1 st : State Ext) :
  bind_command command st = (s1, inr tt) →
  trace s1 = trace st ∧ ext s1 = ext st ∧ the_kwargs s1 = the_kwargs st ∧
  active s1 = active st ∧ written s1 = written st.
Proof.
  destruct command; simpl; [by intros [= <-] | | done].
  unfold instantiate. simpl. by intros [= <-].
Qed.

(** One call: the operation is asked under the schema that is active, and
    the outside world it leaves is the one the task goes on with. *)
Lemma invoke_world (inv : Invocation) (st : State Ext) :
  ∃ st', invoke NOTICE operation inv st =
           (st', match raised (operation inv (active st) (ext st)) with
                 | Some e => inl e
                 | None => inr tt
                 end) ∧
         trace st' = trace st ++ [EvInvoke inv] ∧
         the_kwargs st' = the_kwargs st ∧
         the_command st' = the_command st ∧
         active st' = active st ∧
         ext st' = ext_after (operation inv (active st) (ext st)).
Proof.
  unfold invoke.
  set (o := operation inv (active st) (ext st)).
  set (st1 := set_ext (ext_after o) (set_trace (trace st ++ [EvInvoke inv]) st)).
  destruct (writes_frame (writes o) st1) as (Ht & Hk & Hc & Ha & He).
  exists (foldl (λ s w, write NOTICE w s) st1 (writes o)).
  split; [by destruct (raised o)|].
  by rewrite Ht, Hk, Hc, Ha, He.
Qed.

(** A task once its command is bound, by what the resolution of its schema
    gives: the schema it leaves active, the calls it makes, the outside
    world and the output it leaves, and its result. *)
Lemma run_on_schema_body_world (name executor_codename : string) (command : CommandArg)
    (function_name : option string) (args : list Value)
    (pass_schema_in_kwargs fork_db : bool) (s1 st : State Ext) :
  bind_command command st = (s1, inr tt) →
  ∃ st' r evs,
    run_on_schema_body env NOTICE operation name executor_codename command function_name
      args pass_schema_in_kwargs fork_db st = (st', r) ∧
    trace st' = trace st ++ evs ∧
    match resolve_schema env name (ext st) with
    | inl e =>
        r = inl e ∧ active st' = active st ∧ ext st' = ext st ∧
        written st' = written st ∧
        invocations_of evs = [] ∧ activations_of evs = []
    | inr schema =>
        active st' = Some schema ∧ activations_of evs = [schema] ∧
        match function_name with
        | None =>
            r = inl (TypeError "attribute name must be string, not 'NoneType'") ∧
            ext st' = ext st ∧ written st' = written st ∧ invocations_of evs = []
        | Some f =>
            ∃ instance,
              let inv := call_for f instance args
                           (injected pass_schema_in_kwargs name
                              (without_streams (the_kwargs st))) in
              invocations_of evs = [inv] ∧
              ext st' = ext_after (operation inv (Some schema) (ext st)) ∧
              r = match raised (operation inv (Some schema) (ext st)) with
                  | Some e => inl e
                  | None => inr name
                  end
        end
    end.
Proof.
  intros Hbind. rewrite run_on_schema_body_steps, Hbind.
  destruct (bind_command_world command s1 st Hbind) as (Ht1 & He1 & Hk1 & Ha1 & Hw1).
  pose proof (prepare_streams_written name executor_codename s1) as Hw2.
  destruct (prepare_streams_spec name executor_codename s1)
    as (s2 & Hprep & Ht2 & Ha2 & He2 & Hk2 & _).
  rewrite Hprep in Hw2 |- *. simpl in Hw2. simpl.
  set (s3 := if fork_db then set_trace (trace s2 ++ [EvCloseAll]) s2 else s2).
  assert (trace s3 = trace st ++ closing fork_db ∧ ext s3 = ext st ∧
          the_kwargs s3 = without_streams (the_kwargs st) ∧
          active s3 = active st ∧ written s3 = written st)
    as (Ht3 & He3 & Hk3 & Ha3 & Hw3).
  { subst s3. destruct fork_db; simpl;
      rewrite ?Ht2, ?He2, ?Hk2, ?Ha2, ?Hw2, ?Ht1, ?He1, ?Hk1, ?Ha1, ?Hw1;
      by rewrite ?app_nil_r. }
  rewrite He3.
  destruct (resolve_schema env name (ext st)) as [e|schema].
  { eexists _, _, (closing fork_db ++ [EvResolve name]). split; [done|]. simpl.
    rewrite Ht3, Ha3, He3, Hw3, <- app_assoc.
    split; [done|]. repeat split; by destruct fork_db. }
  set (s5 := set_trace _ (set_active _ _)).
  set (s6 := if pass_schema_in_kwargs then _ else s5).
  assert (trace s6 = trace st ++ closing fork_db ++ [EvResolve name; EvActivate schema] ∧
          the_kwargs s6 = injected pass_schema_in_kwargs name (without_streams (the_kwargs st)) ∧
          active s6 = Some schema ∧ ext s6 = ext st ∧ written s6 = written st)
    as (Ht6 & Hk6 & Ha6 & He6 & Hw6).
  { subst s6 s5. destruct pass_schema_in_kwargs; simpl; rewrite Ht3, Hk3, He3, Hw3;
      by rewrite <- !app_assoc. }
  pose proof (dispatch_spec function_name args s6) as Hd.
  destruct function_name as [f|].
  - fold (call_for f (the_command s6) args (the_kwargs s6)) in Hd.
    destruct (invoke_world (call_for f (the_command s6) args (the_kwargs s6)) s6)
      as (s7 & Hi & Ht7 & _ & _ & Ha7 & He7).
    rewrite Hd, Hi. rewrite Ha6, He6, Hk6 in *.
    set (inv := call_for f (the_command s6) args
                  (injected pass_schema_in_kwargs name (without_streams (the_kwargs st))))
      in *.
    destruct (raised (operation inv (Some schema) (ext st))) as [e|] eqn:Hr.
    + exists s7, (inl e),
        (closing fork_db ++ [EvResolve name; EvActivate schema; EvInvoke inv]).
      split; [done|]. split; [rewrite Ht7, Ht6, <- !app_assoc; reflexivity|].
      split; [done|]. split; [by destruct fork_db|].
      exists (the_command s6). cbv zeta. fold inv. rewrite Hr.
      by destruct fork_db.
    + eexists _, _,
        (closing fork_db ++ [EvResolve name; EvActivate schema; EvInvoke inv]
         ++ finishing fork_db).
      split; [done|].
      split; [destruct fork_db; simpl; rewrite Ht7, Ht6; simpl; by rewrite <- !app_assoc|].
      split; [by destruct fork_db|]. split; [by destruct fork_db|].
      exists (the_command s6). cbv zeta. fold inv. rewrite Hr.
      by destruct fork_db.
  - rewrite Hd. eexists s6, _,
      (closing fork_db ++ [EvResolve name; EvActivate schema]).
    split; [done|]. split; [done|]. split; [done|].
    split; [by destruct fork_db|]. repeat split; try done. by destruct fork_db.
Qed.

Lemma resolve_schema_name (name : string) (ext : Ext) (schema : SchemaObject) :
  resolve_schema env name ext = inr schema → name_of schema = name.
Proof.
  unfold resolve_schema.
  destruct (TENANTS (settings env) !! name) as [conf|]; [by intros [= <-]|].
  case_decide; [by intros [= <-]|].
  destruct (get_tenant_model env) as [model|]; [|done].
  unfold objects_get.
  destruct (filter (λ t, tenant_schema_name t = name) (objects model ext))
    as [|t [|t' rows]] eqn:Hrows; [done | | done].
  intros [= <-]. simpl.
  assert (t ∈ filter (λ t, tenant_schema_name t = name) (objects model ext)) as Hin
    by (rewrite Hrows; apply list_elem_of_here).
  by apply list_elem_of_filter in Hin as [? _].
Qed.

(** [run_on_schema] as a whole, by what the resolution of its schema gives. *)
Lemma run_on_schema_world (name executor_codename : string) (command : CommandArg)
    (function_name : option string) (args : option (list Value)) (kwargs : KwargsArg)
    (pass_schema_in_kwargs fork_db : bool) (st : State Ext) :
  command ≠ Metaclass →
  ∃ st' r evs,
    run_on_schema env NOTICE operation name executor_codename command function_name
      args kwargs pass_schema_in_kwargs fork_db st = (st', r) ∧
    trace st' = trace st ++ evs ∧
    match resolve_schema env name (ext st) with
    | inl e =>
        r = inl e ∧ active st' = active st ∧ ext st' = ext st ∧
        written st' = written st ∧
        invocations_of evs = [] ∧ activations_of evs = []
    | inr schema =>
        active st' = Some schema ∧ activations_of evs = [schema] ∧
        match function_name with
        | None =>
            r = inl (TypeError "attribute name must be string, not 'NoneType'") ∧
            ext st' = ext st ∧ written st' = written st ∧ invocations_of evs = []
        | Some f =>
            ∃ instance,
              let inv := call_for f instance (default [] args)
                           (injected pass_schema_in_kwargs name
                              (without_streams
                                 match kwargs with
                                 | KwargsNone => ∅
                                 | KwargsDict => the_kwargs st
                                 end)) in
              invocations_of evs = [inv] ∧
              ext st' = ext_after (operation inv (Some schema) (ext st)) ∧
              r = match raised (operation inv (Some schema) (ext st)) with
                  | Some e => inl e
                  | None => inr name
                  end
        end
    end.
Proof.
  intros Hcmd. unfold run_on_schema.
  set (st0 := match kwargs with
              | KwargsNone => set_kwargs ∅ st
              | KwargsDict => st
              end).
  set (sA := set_trace (trace st0 ++ [EvTask name]) st0).
  assert (trace sA = trace st ++ [EvTask name] ∧ ext sA = ext st ∧
          active sA = active st ∧ written sA = written st ∧
          the_kwargs sA = match kwargs with
                          | KwargsNone => ∅
                          | KwargsDict => the_kwargs st
                          end) as (HtA & HeA & HaA & HwA & HkA).
  { subst sA st0. by destruct kwargs. }
  assert (∃ s1, bind_command command sA = (s1, inr tt)) as [s1 Hbind].
  { pose proof (bind_command_spec command sA) as Hb.
    destruct command; [by eexists | | done]. destruct Hb as (s1 & ? & _). by eexists. }
  destruct (run_on_schema_body_world name executor_codename command function_name
              (default [] args) pass_schema_in_kwargs fork_db s1 sA Hbind)
    as (st' & r & evs & -> & Ht & Hrest).
  rewrite HtA, HeA, HaA, HwA, HkA in *.
  eexists _, r, (EvTask name :: evs).
  split; [reflexivity|].
  assert (∀ s : State Ext,
            let s' := match command with
                      | Instance => match kwargs with
                                    | KwargsNone => set_kwargs (the_kwargs st) s
                                    | KwargsDict => s
                                    end
                      | _ => set_command (the_command st)
                               match kwargs with
                               | KwargsNone => set_kwargs (the_kwargs st) s
                               | KwargsDict => s
                               end
                      end in
            trace s' = trace s ∧ active s' = active s ∧ ext s' = ext s ∧
            written s' = written s) as Hpost.
  { intros s. by destruct command, kwargs. }
  destruct (Hpost st') as (-> & -> & -> & ->).
  split; [by rewrite Ht, <- app_assoc|]. exact Hrest.
Qed.

(** X1. The schema that resolution yields goes by the name that was asked
    for, whichever source it comes from. In a tenant table whose schema
    names are unique, as the model declares them, the lookup of the dynamic
    source returns a row exactly when the table holds it under that name,
    and never fails for finding several. *)
Theorem resolved_schema_is_the_one_asked_for (name : string) (ext : Ext) :
  (∀ schema, resolve_schema env name ext = inr schema → name_of schema = name) ∧
  (∀ model,
     NoDup (tenant_schema_name <$> objects model ext) →
     objects_get model ext name ≠ inl MultipleObjectsReturned ∧
     ∀ t, objects_get model ext name = inr (Loaded t) ↔
          t ∈ objects model ext ∧ tenant_schema_name t = name).
Proof.
  clear NOTICE operation HAS_TQDM HAS_CONFIGURATIONS.
  split; [intros schema; apply resolve_schema_name|].
  intros model Hnodup. unfold objects_get.
  assert (∀ t, t ∈ filter (λ t, tenant_schema_name t = name) (objects model ext) ↔
               t ∈ objects model ext ∧ tenant_schema_name t = name) as Hfilter.
  { intros t. rewrite list_elem_of_filter. tauto. }
  assert (∀ t1 t2, t1 ∈ objects model ext → t2 ∈ objects model ext →
                   tenant_schema_name t1 = tenant_schema_name t2 → t1 = t2) as Hinj.
  { revert Hnodup. generalize (objects model ext) as rows.
    induction rows as [|row rows IH]; intros Hnodup t1 t2 H1 H2 Heq.
    { by apply elem_of_nil in H1. }
    rewrite fmap_cons in Hnodup. apply NoDup_cons in Hnodup as [Hfresh Hnodup].
    apply elem_of_cons in H1 as [-> | H1]; apply elem_of_cons in H2 as [-> | H2].
    - done.
    - destruct Hfresh. rewrite Heq. by apply list_elem_of_fmap_2.
    - destruct Hfresh. rewrite <- Heq. by apply list_elem_of_fmap_2.
    - by apply IH. }
  destruct (filter (λ t, tenant_schema_name t = name) (objects model ext))
    as [|t1 [|t2 rows]] eqn:Hrows.
  - split; [done|]. intros t. rewrite <- Hfilter. split; [done|].
    by intros ?%elem_of_nil.
  - split; [done|]. intros t. rewrite <- Hfilter. split.
    + intros [= ->]. apply list_elem_of_here.
    + by intros ->%list_elem_of_singleton.
  - exfalso.
    assert (NoDup (filter (λ t, tenant_schema_name t = name) (objects model ext)))
      as Hnd.
    { apply NoDup_filter. by eapply NoDup_fmap_1. }
    assert (t1 = t2) as ->.
    { destruct (proj1 (Hfilter t1)) as [Hin1 Hn1]; [apply list_elem_of_here|].
      destruct (proj1 (Hfilter t2)) as [Hin2 Hn2];
        [apply list_elem_of_further, list_elem_of_here|].
      apply Hinj; congruence. }
    rewrite Hrows in Hnd. apply NoDup_cons in Hnd as [Hnotin _].
    apply Hnotin, list_elem_of_here.
Qed.

(** X2. A task whose schema does not resolve does no work: it raises the
    error of the resolution, calls the operation not once, activates
    nothing and leaves the active schema, the outside world and the output
    as they were. *)
Theorem unresolved_task_does_no_work (name executor_codename : string)
    (command : CommandArg) (function_name : option string)
    (args : option (list Value)) (kwargs : KwargsArg)
    (pass_schema_in_kwargs fork_db : bool) (st : State Ext) (e : Exn) :
  command ≠ Metaclass →
  resolve_schema env name (ext st) = inl e →
  ∃ st' evs,
    run_on_schema env NOTICE operation name executor_codename command function_name
      args kwargs pass_schema_in_kwargs fork_db st = (st', inl e) ∧
    trace st' = trace st ++ evs ∧
    invocations_of evs = [] ∧ activations_of evs = [] ∧
    active st' = active st ∧ ext st' = ext st ∧ written st' = written st.
Proof.
  intros Hcmd Hres.
  destruct (run_on_schema_world name executor_codename command function_name args
              kwargs pass_schema_in_kwargs fork_db st Hcmd)
    as (st' & r & evs & Hrun & Ht & Hrest).
  rewrite Hres in Hrest. destruct Hrest as (-> & Ha & He & Hw & Hi & Hact).
  by exists st', evs.
Qed.

(** X3. A task whose schema resolves activates that schema, the one going by
    the task's own name, and no other, and leaves it active when it ends:
    nothing in the task deactivates it, whether the operation returns or
    raises. *)
Theorem task_activates_its_own_schema (name executor_codename : string)
    (command : CommandArg) (function_name : option string)
    (args : option (list Value)) (kwargs : KwargsArg)
    (pass_schema_in_kwargs fork_db : bool) (st : State Ext) (schema : SchemaObject) :
  command ≠ Metaclass →
  resolve_schema env name (ext st) = inr schema →
  name_of schema = name ∧
  ∃ st' r evs,
    run_on_schema env NOTICE operation name executor_codename command function_name
      args kwargs pass_schema_in_kwargs fork_db st = (st', r) ∧
    trace st' = trace st ++ evs ∧
    activations_of evs = [schema] ∧
    active st' = Some schema.
Proof.
  intros Hcmd Hres. split; [by eapply resolve_schema_name|].
  destruct (run_on_schema_world name executor_codename command function_name args
              kwargs pass_schema_in_kwargs fork_db st Hcmd)
    as (st' & r & evs & Hrun & Ht & Hrest).
  rewrite Hres in Hrest. destruct Hrest as (Ha & Hact & _).
  by exists st', r, evs.
Qed.

(** X4. With no function name, the default of [run_on_schema], a task never
    returns and never calls the operation: once its command is bound and
    its schema resolved it has activated the schema and then raises the
    [TypeError] of [getattr(command, None)], the outside world untouched. *)
Theorem task_without_function_name (name executor_codename : string)
    (command : CommandArg) (args : option (list Value)) (kwargs : KwargsArg)
    (pass_schema_in_kwargs fork_db : bool) (st : State Ext) :
  ∃ st' e evs,
    run_on_schema env NOTICE operation name executor_codename command None args kwargs
      pass_schema_in_kwargs fork_db st = (st', inl e) ∧
    trace st' = trace st ++ evs ∧
    invocations_of evs = [] ∧
    ext st' = ext st ∧
    (command ≠ Metaclass →
     ∀ schema, resolve_schema env name (ext st) = inr schema →
       e = TypeError "attribute name must be string, not 'NoneType'" ∧
       active st' = Some schema).
Proof.
  assert (command = Metaclass ∨ command ≠ Metaclass) as [-> | Hcmd]
    by (destruct command; auto).
  - destruct (run_on_schema_course name executor_codename Metaclass None args kwargs
                pass_schema_in_kwargs fork_db st) as (st' & r & Hrun & Ht & -> & _).
    eexists st', _, [EvTask name]. split; [exact Hrun|]. split; [done|]. split; [done|].
    split; [|done].
    revert Hrun. unfold run_on_schema.
    rewrite run_on_schema_body_steps. simpl. intros [= <-]. by destruct kwargs.
  - destruct (run_on_schema_world name executor_codename command None args kwargs
                pass_schema_in_kwargs fork_db st Hcmd)
      as (st' & r & evs & Hrun & Ht & Hrest).
    destruct (resolve_schema env name (ext st)) as [e|schema].
    + destruct Hrest as (-> & _ & He & _ & Hi & _).
      exists st', e, evs. by repeat split.
    + destruct Hrest as (Ha & _ & -> & He & _ & Hi).
      eexists st', _, evs. split; [done|]. split; [done|]. split; [done|].
      split; [done|]. by intros _ schema' [= <-].
Qed.

(** X5. With a function name, a task whose command is bound and whose
    schema resolves calls the operation exactly once, with that schema
    active and on the outside world as the task found it. The world the
    operation leaves is the one the task leaves; an exception of the
    operation is what the task raises, unchanged, and otherwise the task
    returns its schema name. *)
Theorem task_calls_operation_once (name executor_codename : string)
    (command : CommandArg) (f : string) (args : option (list Value))
    (kwargs : KwargsArg) (pass_schema_in_kwargs fork_db : bool) (st : State Ext)
    (schema : SchemaObject) :
  command ≠ Metaclass →
  resolve_schema env name (ext st) = inr schema →
  ∃ st' r evs inv,
    run_on_schema env NOTICE operation name executor_codename command (Some f) args
      kwargs pass_schema_in_kwargs fork_db st = (st', r) ∧
    trace st' = trace st ++ evs ∧
    invocations_of evs = [inv] ∧
    ext st' = ext_after (operation inv (Some schema) (ext st)) ∧
    r = match raised (operation inv (Some schema) (ext st)) with
        | Some e => inl e
        | None => inr name
        end.
Proof.
  intros Hcmd Hres.
  destruct (run_on_schema_world name executor_codename command (Some f) args
              kwargs pass_schema_in_kwargs fork_db st Hcmd)
    as (st' & r & evs & Hrun & Ht & Hrest).
  rewrite Hres in Hrest. destruct Hrest as (_ & _ & instance & Hi & He & Hr).
  by eexists st', r, evs, _.
Qed.

(** X6. With neither [args] nor [kwargs], the defaults of [run_on_schema],
    the one call of a task has no positional argument, and its named
    arguments are the schema name alone when that is to be passed and none
    otherwise; the dict of the caller is as it was before the task. *)
Theorem task_with_default_arguments (name executor_codename : string)
    (command : CommandArg) (f : string) (pass_schema_in_kwargs fork_db : bool)
    (st : State Ext) (schema : SchemaObject) :
  command ≠ Metaclass →
  resolve_schema env name (ext st) = inr schema →
  ∃ st' r evs instance,
    run_on_schema env NOTICE operation name executor_codename command (Some f) None
      KwargsNone pass_schema_in_kwargs fork_db st = (st', r) ∧
    trace st' = trace st ++ evs ∧
    invocations_of evs =
      [call_for f instance []
         (if pass_schema_in_kwargs then {["schema_name" := VStr name]} else ∅)] ∧
    the_kwargs st' = the_kwargs st.
Proof.
  intros Hcmd Hres.
  destruct (run_on_schema_world name executor_codename command (Some f) None
              KwargsNone pass_schema_in_kwargs fork_db st Hcmd)
    as (st' & r & evs & Hrun & Ht & Hrest).
  rewrite Hres in Hrest. destruct Hrest as (_ & _ & instance & Hi & _ & _).
  exists st', r, evs, instance. split; [done|]. split; [done|]. split.
  - rewrite Hi. unfold injected, without_streams. simpl.
    rewrite !delete_empty. by destruct pass_schema_in_kwargs.
  - pose proof (run_on_schema_kwargs name executor_codename command (Some f) None
                  KwargsNone pass_schema_in_kwargs fork_db st) as (_ & Hk & _).
    rewrite Hrun in Hk. by apply Hk.
Qed.

(** *** One style function over the messages of a task *)

Lemma StyleFunc_call_line_start (self : StyleFunc) (message : string) :
  StyleFunc_call NOTICE self message =
  ({| sf_executor_codename := sf_executor_codename self;
      sf_schema_name := sf_schema_name self;
      last_message := Some message |},
   if line_start (last_message self)
   then prefix_of NOTICE self +:+ message else message).
Proof.
  unfold StyleFunc_call, line_start, prefix_of.
  destruct (last_message self) as [before|]; [destruct (endswith before newline)|];
    by rewrite ?string_app_assoc.
Qed.

(** X7. One style function called on the messages of a task one after the
    other: a message gets the "[executor:tenant] " prefix exactly when the
    message before it ended its line, the first one by the message the
    function had seen before, if any; at the end the function remembers the
    last message. So messages that are all complete lines are all prefixed,
    and a line sent in pieces is prefixed once, at its start. *)
Theorem StyleFunc_calls_prefix_line_starts (self : StyleFunc) (messages : list string) :
  (StyleFunc_calls NOTICE self messages).2 =
    zip_with (λ before message,
                if line_start before
                then prefix_of NOTICE self +:+ message else message)
             (last_message self :: (Some <$> messages)) messages ∧
  Some (last_message (StyleFunc_calls NOTICE self messages).1) =
    last (last_message self :: (Some <$> messages)) ∧
  prefix_of NOTICE (StyleFunc_calls NOTICE self messages).1 = prefix_of NOTICE self.
Proof.
  revert self. induction messages as [|message messages IH]; intros self; [done|].
  simpl. rewrite StyleFunc_call_line_start.
  set (self1 := {| sf_executor_codename := sf_executor_codename self;
                   sf_schema_name := sf_schema_name self;
                   last_message := Some message |}).
  destruct (IH self1) as (Htexts & Hlast & Hprefix).
  destruct (StyleFunc_calls NOTICE self1 messages) as [self2 texts]. simpl in *.
  split; [by rewrite Htexts|]. split; [|done].
  rewrite Hlast. by destruct messages.
Qed.

(** *** Sequential runs, piece by piece *)

Lemma for_each_app (runner : string -> State Ext -> State Ext * (Exn + string))
    (xs ys : list string) (st : State Ext) :
  for_each runner (xs ++ ys) st =
  match for_each runner xs st with
  | (st1, inr _) => for_each runner ys st1
  | (st1, inl e) => (st1, inl e)
  end.
Proof.
  revert st. induction xs as [|x xs IH]; intros st; [done|].
  simpl. unfold bind. destruct (runner x st) as [s1 [e|token]]; [done|].
  rewrite IH. by destruct (for_each runner xs s1) as [s2 [e|[]]].
Qed.

(** X8. A sequential run over one list followed by another is the run over
    the first followed, from the state it leaves, by the run over the
    second. If the first run raises, that is the outcome, and no task of
    the second list is run. *)
Theorem sequential_app (xs ys : list string) (command : CommandArg)
    (function_name : option string) (args : option (list Value)) (kwargs : KwargsArg)
    (pass_schema_in_kwargs : bool) (st : State Ext) :
  sequential env NOTICE operation HAS_TQDM (xs ++ ys) command function_name args kwargs
    pass_schema_in_kwargs st =
  match sequential env NOTICE operation HAS_TQDM xs command function_name args kwargs
          pass_schema_in_kwargs st with
  | (st1, inr _) =>
      match sequential env NOTICE operation HAS_TQDM ys command function_name args
              kwargs pass_schema_in_kwargs st1 with
      | (st2, inr _) => (st2, inr (xs ++ ys))
      | (st2, inl e) => (st2, inl e)
      end
  | (st1, inl e) => (st1, inl e)
  end.
Proof.
  rewrite !sequential_loop, for_each_app.
  destruct (for_each _ xs st) as [st1 [e|[]]]; [done|].
  rewrite sequential_loop. by destruct (for_each _ ys st1) as [st2 [e|[]]].
Qed.

Lemma for_each_activations (command : CommandArg) (function_name : option string)
    (args : option (list Value)) (kwargs : KwargsArg) (pass_schema_in_kwargs : bool)
    (schemas : list string) (st st' : State Ext) :
  command ≠ Metaclass →
  for_each (sequential_runner env NOTICE operation command function_name args kwargs
              pass_schema_in_kwargs) schemas st = (st', inr tt) →
  ∃ evs, trace st' = trace st ++ evs ∧
         Forall2 (λ schema name, name_of schema = name) (activations_of evs) schemas ∧
         active st' = from_option Some (active st) (last (activations_of evs)).
Proof.
  intros Hcmd. revert st.
  induction schemas as [|name schemas IH]; intros st.
  { intros [= <-]. exists []. rewrite app_nil_r. by repeat split. }
  simpl. unfold bind at 1. unfold sequential_runner at 1.
  destruct (run_on_schema_world name "sequential" command function_name args kwargs
              pass_schema_in_kwargs false st Hcmd)
    as (s1 & r & evs1 & -> & Ht1 & Hrest).
  destruct r as [e|token]; [done|]. intros Hloop.
  destruct (IH s1 Hloop) as (evs2 & Ht2 & Hnames & Hactive).
  destruct (resolve_schema env name (ext st)) as [e|schema] eqn:Hres.
  { by destruct Hrest as ([=] & _). }
  destruct Hrest as (Ha1 & Hacts & _).
  exists (evs1 ++ evs2). rewrite activations_of_app, Hacts.
  split; [by rewrite Ht2, Ht1, <- app_assoc|]. simpl.
  split; [constructor; [by eapply resolve_schema_name | done]|].
  rewrite Hactive, Ha1. destruct (activations_of evs2) as [|next rest]; [done|].
  change (last (schema :: next :: rest)) with (last (next :: rest)).
  destruct (last (next :: rest)) eqn:Hlast; [done|]. by apply last_None in Hlast.
Qed.

(** X9. A sequential run that finishes has activated one schema for each
    identifier, in the order of the input, each going by the name of its
    identifier. Nothing is deactivated at the end: the schema that is
    active after the run is the last one activated, and with no identifier
    at all it is the one that was active before. *)
Theorem sequential_leaves_last_schema_active (schemas : list string)
    (command : CommandArg) (function_name : option string)
    (args : option (list Value)) (kwargs : KwargsArg) (pass_schema_in_kwargs : bool)
    (st st' : State Ext) (result : list string) :
  command ≠ Metaclass →
  sequential env NOTICE operation HAS_TQDM schemas command function_name args kwargs
    pass_schema_in_kwargs st = (st', inr result) →
  ∃ evs, trace st' = trace st ++ evs ∧
         Forall2 (λ schema name, name_of schema = name) (activations_of evs) schemas ∧
         active st' = from_option Some (active st) (last (activations_of evs)).
Proof.
  intros Hcmd. rewrite sequential_loop.
  destruct (for_each _ schemas st) as [s1 [e|[]]] eqn:Hloop; [done|].
  intros [= <- _]. by eapply for_each_activations.
Qed.

(** *** What a parallel run hands back *)

Lemma first_failure (arrived : list (nat * (Exn + string))) :
  Forall (λ a, returned a.2) arrived ∨
  ∃ before i e after,
    arrived = before ++ (i, inl e) :: after ∧ Forall (λ a, returned a.2) before.
Proof.
  induction arrived as [|[i [e|token]] arrived IH].
  - left. constructor.
  - right. exists [], i, e, arrived. split; [done|]. constructor.
  - destruct IH as [Hall | (before & j & e & after & -> & Hbefore)].
    + left. constructor; [by exists token | done].
    + right. exists ((i, inr token) :: before), j, e, after. split; [done|].
      constructor; [by exists token | done].
Qed.

(** Once an exception is stored, [MapResult] keeps it. *)
Lemma MapResult_failed (arrived : list (nat * (Exn + string))) (e : Exn) (left : nat) :
  foldl MapResult_set
        {| mr_success := false; mr_value := inl e; mr_number_left := left |} arrived =
  {| mr_success := false; mr_value := inl e; mr_number_left := left - length arrived |}.
Proof.
  revert left. induction arrived as [|[i r] arrived IH]; intros left; simpl.
  { by rewrite Nat.sub_0_r. }
  assert (MapResult_set
            {| mr_success := false; mr_value := inl e; mr_number_left := left |} (i, r) =
          {| mr_success := false; mr_value := inl e; mr_number_left := left - 1 |}) as ->
    by by destruct r.
  rewrite IH. f_equal. lia.
Qed.

Lemma pool_map_first_failure (n i : nat) (e : Exn)
    (before after : list (nat * (Exn + string))) :
  Forall (λ a, returned a.2) before →
  (n ≤ length (before ++ (i, inl e) :: after))%nat →
  pool_map n (before ++ (i, inl e) :: after) = Some (inl e).
Proof.
  intros Hbefore Hn. unfold pool_map, MapResult_new.
  rewrite foldl_app, MapResult_all_returned by done. simpl.
  unfold MapResult_set at 2. simpl. rewrite MapResult_failed.
  unfold MapResult_get. simpl.
  rewrite length_app in Hn. simpl in Hn.
  case_decide; [done | lia].
Qed.

Lemma imap_list_outcome (results : list (option (Exn + string))) :
  Forall is_Some results →
  (∃ tokens, results = (λ token, Some (inr token)) <$> tokens ∧
             imap_list results = Some (inr tokens)) ∨
  (∃ i e, results !! i = Some (Some (inl e)) ∧
          (∀ j x, j < i → results !! j = Some (Some x) → returned x) ∧
          imap_list results = Some (inl e)).
Proof.
  induction results as [|result results IH]; intros Hall.
  { left. by exists []. }
  apply Forall_cons in Hall as [[[e|token] ->] Hall].
  { right. exists 0, e. split; [done|]. split; [intros; lia | done]. }
  destruct (IH Hall) as [(tokens & -> & Himap) | (i & e & Hi & Hlow & Himap)].
  - left. exists (token :: tokens). split; [done|]. simpl in *. by rewrite Himap.
  - right. exists (S i), e. split; [done|]. split; [|simpl; by rewrite Himap].
    intros [|j] x Hj; simpl.
    + intros [= <-]. by exists token.
    + apply Hlow. lia.
Qed.

Lemma arrival_of_position {A} (arrived : list (nat * A)) (j : nat) (x y : A) :
  NoDup arrived.*1 → (j, x) ∈ arrived → (j, y) ∈ arrived → x = y.
Proof.
  induction arrived as [|[i z] arrived IH]; intros Hnodup Hx Hy.
  { by apply elem_of_nil in Hx. }
  rewrite fmap_cons in Hnodup. apply NoDup_cons in Hnodup as [Hfresh Hnodup].
  simpl in Hfresh.
  apply elem_of_cons in Hx as [Hx | Hx]; apply elem_of_cons in Hy as [Hy | Hy].
  - congruence.
  - injection Hx as -> ->. destruct Hfresh.
    by apply (list_elem_of_fmap_2 fst arrived (i, y)).
  - injection Hy as -> ->. destruct Hfresh.
    by apply (list_elem_of_fmap_2 fst arrived (i, x)).
  - by apply IH.
Qed.

Lemma pool_imap_outcome (n : nat) (arrived : list (nat * (Exn + string))) :
  arrived.*1 ≡ₚ seq 0 n →
  Forall (λ a, returned a.2) arrived ∨
  ∃ i e, (i, inl e) ∈ arrived ∧
         (∀ j x, j < i → (j, x) ∈ arrived → returned x) ∧
         pool_imap n arrived = Some (inl e).
Proof.
  intros Hperm. unfold pool_imap.
  set (filled := foldl (λ acc (a : nat * (Exn + string)), <[a.1 := Some a.2]> acc)
                       (replicate n None) arrived).
  assert (length filled = n) as Hlen.
  { subst filled. by rewrite (foldl_insert_length Some), length_replicate. }
  assert (NoDup arrived.*1) as Hnodup by (rewrite Hperm; apply NoDup_seq).
  assert (∀ j, j < n → ∃ x, (j, x) ∈ arrived ∧ filled !! j = Some (Some x)) as Hfilled.
  { intros j Hj. apply (foldl_insert_lookup Some); [by rewrite length_replicate|].
    rewrite Hperm. apply elem_of_seq. lia. }
  assert (∀ j x, (j, x) ∈ arrived → filled !! j = Some (Some x)) as Hthere.
  { intros j x Hin.
    assert (j ∈ seq 0 n) as Hj%elem_of_seq.
    { rewrite <- Hperm. by apply (list_elem_of_fmap_2 fst arrived (j, x)). }
    destruct (Hfilled j) as (y & Hy & ->); [lia|].
    by rewrite (arrival_of_position arrived j x y). }
  assert (∀ j x, filled !! j = Some (Some x) → (j, x) ∈ arrived) as Hback.
  { intros j x Hj. destruct (Hfilled j) as (y & Hy & Hlookup).
    - rewrite <- Hlen. by eapply lookup_lt_Some.
    - rewrite Hlookup in Hj. by injection Hj as <-. }
  destruct (imap_list_outcome filled) as [(tokens & Htokens & _) | (i & e & Hi & Hlow & ->)].
  - apply Forall_lookup. intros j result Hj.
    destruct (Hfilled j) as (y & _ & Hy); [rewrite <- Hlen; by eapply lookup_lt_Some|].
    rewrite Hy in Hj. injection Hj as <-. done.
  - left. apply Forall_forall. intros [j x] Hin%Hthere. simpl.
    rewrite Htokens, list_lookup_fmap in Hin.
    destruct (tokens !! j) as [token|]; [|done].
    injection Hin as <-. by exists token.
  - right. exists i, e. split; [by apply Hback|]. split; [|done].
    intros j x Hj Hin%Hthere. by eapply Hlow.
Qed.

(** What comes out of the collected results of a run in which every task
    came back once: the input when all returned; else an exception of one
    of the tasks, by position under [imap] and by arrival under [map]. *)
Lemma collected_outcome (tqdm_in_use : bool) (schemas : list string)
    (arrived : list (nat * (Exn + string))) :
  arrived.*1 ≡ₚ seq 0 (length schemas) →
  Forall (λ a, ∀ token, a.2 = inr token → schemas !! a.1 = Some token) arrived →
  ∃ r, (if tqdm_in_use then pool_imap (length schemas) arrived
        else pool_map (length schemas) arrived) = Some r ∧
       match r with
       | inr result => result = schemas ∧ Forall (λ a, returned a.2) arrived
       | inl e =>
           if tqdm_in_use
           then ∃ i, (i, inl e) ∈ arrived ∧
                     ∀ j x, j < i → (j, x) ∈ arrived → returned x
           else ∃ before i after,
                  arrived = before ++ (i, inl e) :: after ∧
                  Forall (λ a, returned a.2) before
       end.
Proof.
  intros Hperm Hnames.
  destruct (first_failure arrived) as [Hall | (before & i & e & after & Harr & Hbefore)].
  { destruct (collected_in_input_order schemas arrived Hperm Hall Hnames)
      as (Himap & Hmap).
    exists (inr schemas). by destruct tqdm_in_use. }
  destruct tqdm_in_use.
  - destruct (pool_imap_outcome (length schemas) arrived Hperm)
      as [Hall | (j & e' & Hin & Hlow & Himap)].
    + rewrite Harr in Hall. apply Forall_app in Hall as [_ Hall].
      apply Forall_cons in Hall as [[token [=]] _].
    + exists (inl e'). split; [done|]. by exists j.
  - exists (inl e). subst arrived. split; [|by exists before, i, after].
    apply pool_map_first_failure; [done|].
    by rewrite <- (length_fmap fst), Hperm, length_seq.
Qed.

Lemma parallel_pool_arrivals (schedule : list (nat * nat)) (schemas : list string)
    (command : CommandArg) (function_name : option string)
    (args : option (list Value)) (kwargs : KwargsArg) (pass_schema_in_kwargs : bool)
    (st : State Ext) :
  valid_schedule (length schemas)
    (pool_size env (PGSCHEMAS_PARALLEL_MAX_PROCESSES (settings env))) schedule →
  (arrivals (parallel_pool env NOTICE operation HAS_CONFIGURATIONS schedule schemas
               command function_name args kwargs pass_schema_in_kwargs st)).*1
    = schedule.*1 ∧
  Forall (λ a, ∀ token, a.2 = inr token → schemas !! a.1 = Some token)
    (arrivals (parallel_pool env NOTICE operation HAS_CONFIGURATIONS schedule schemas
                 command function_name args kwargs pass_schema_in_kwargs st)).
Proof.
  intros [Hperm Hworkers].
  apply (pool_run_arrivals
           (parallel_runner env NOTICE operation (type_of command st) function_name
              args kwargs pass_schema_in_kwargs)
           (the_kwargs st) schemas schedule
           (Pool_new env (PGSCHEMAS_PARALLEL_MAX_PROCESSES (settings env))
              (init_configurations HAS_CONFIGURATIONS) st)).
  - intros name w w' token. apply run_on_schema_token.
  - simpl. rewrite length_replicate.
    apply Forall_forall. intros step Hstep. split.
    + assert (step.1 ∈ seq 0 (length schemas)) as Hin%elem_of_seq; [|lia].
      rewrite <- Hperm. by apply list_elem_of_fmap_2.
    + rewrite Forall_forall in Hworkers. by apply Hworkers.
  - constructor.
Qed.

(** X10. A parallel run in which every task has come back once always comes
    to an end, and what it raises is what one of its own tasks raised. It
    returns the identifiers, as given, only if every task returned. If
    tasks failed, [list(pool.imap(...))] raises the exception of the failed
    task that is first in the input, and [pool.map] the exception that came
    back first, wherever in the input its task is. *)
Theorem parallel_raises_a_task_failure (schedule : list (nat * nat))
    (schemas : list string) (command : CommandArg) (function_name : option string)
    (args : option (list Value)) (kwargs : KwargsArg) (pass_schema_in_kwargs : bool)
    (st : State Ext) :
  valid_schedule (length schemas)
    (pool_size env (PGSCHEMAS_PARALLEL_MAX_PROCESSES (settings env))) schedule →
  ∃ r,
    (parallel env NOTICE operation HAS_TQDM HAS_CONFIGURATIONS schedule schemas command
       function_name args kwargs pass_schema_in_kwargs st).2 = Some r ∧
    match r with
    | inr result =>
        result = schemas ∧
        Forall (λ a, returned a.2)
          (arrivals (parallel_pool env NOTICE operation HAS_CONFIGURATIONS schedule
                       schemas command function_name args kwargs pass_schema_in_kwargs
                       st))
    | inl e =>
        if HAS_TQDM
        then ∃ i,
               (i, inl e) ∈
                 arrivals (parallel_pool env NOTICE operation HAS_CONFIGURATIONS
                             schedule schemas command function_name args kwargs
                             pass_schema_in_kwargs st) ∧
               ∀ j x, j < i →
                 (j, x) ∈
                   arrivals (parallel_pool env NOTICE operation HAS_CONFIGURATIONS
                               schedule schemas command function_name args kwargs
                               pass_schema_in_kwargs st) →
                 returned x
        else ∃ before i after,
               arrivals (parallel_pool env NOTICE operation HAS_CONFIGURATIONS schedule
                           schemas command function_name args kwargs
                           pass_schema_in_kwargs st)
                 = before ++ (i, inl e) :: after ∧
               Forall (λ a, returned a.2) before
    end.
Proof.
  intros Hvalid.
  destruct (parallel_pool_arrivals schedule schemas command function_name args kwargs
              pass_schema_in_kwargs st Hvalid) as (Hfst & Hnames).
  unfold parallel, tqdm. simpl.
  apply collected_outcome; [|done].
  rewrite Hfst. apply Hvalid.
Qed.

(** A task that is handed the type of a class for its command. *)
Lemma run_on_schema_metaclass (name executor_codename : string)
    (function_name : option string) (args : option (list Value)) (kwargs : KwargsArg)
    (pass_schema_in_kwargs fork_db : bool) (st : State Ext) :
  ∃ st',
    run_on_schema env NOTICE operation name executor_codename Metaclass function_name
      args kwargs pass_schema_in_kwargs fork_db st =
      (st', inl (TypeError "type() takes 1 or 3 arguments")) ∧
    trace st' = trace st ++ [EvTask name] ∧
    ext st' = ext st ∧ active st' = active st ∧ written st' = written st.
Proof.
  unfold run_on_schema. rewrite run_on_schema_body_steps. simpl.
  eexists. split; [reflexivity|]. by destruct kwargs.
Qed.

Lemma pool_step_metaclass (function_name : option string) (args : option (list Value))
    (kwargs : KwargsArg) (pass_schema_in_kwargs : bool) (kwargs0 : gmap string Value)
    (schemas : list string) (p : Pool) (step : nat * nat) :
  Forall (λ a, a.2 = inl (TypeError "type() takes 1 or 3 arguments")) (arrivals p) →
  pool_ext (pool_step (parallel_runner env NOTICE operation Metaclass function_name args
                         kwargs pass_schema_in_kwargs) kwargs0 schemas p step)
    = pool_ext p ∧
  Forall (λ a, a.2 = inl (TypeError "type() takes 1 or 3 arguments"))
    (arrivals (pool_step (parallel_runner env NOTICE operation Metaclass function_name
                            args kwargs pass_schema_in_kwargs) kwargs0 schemas p step)).
Proof.
  intros Harr. unfold pool_step.
  destruct (schemas !! step.1) as [name|]; [|done].
  destruct (workers p !! step.2) as [w|]; [|done].
  unfold parallel_runner.
  destruct (run_on_schema_metaclass name "parallel" function_name args kwargs
              pass_schema_in_kwargs true (set_kwargs kwargs0 (set_ext (pool_ext p) w)))
    as (w' & -> & _ & He & _).
  simpl. split; [done|]. apply Forall_app. split; [done|]. by constructor.
Qed.

Lemma pool_run_metaclass (function_name : option string) (args : option (list Value))
    (kwargs : KwargsArg) (pass_schema_in_kwargs : bool) (kwargs0 : gmap string Value)
    (schemas : list string) (schedule : list (nat * nat)) (p : Pool) :
  Forall (λ a, a.2 = inl (TypeError "type() takes 1 or 3 arguments")) (arrivals p) →
  pool_ext (pool_run (parallel_runner env NOTICE operation Metaclass function_name args
                        kwargs pass_schema_in_kwargs) kwargs0 schemas schedule p)
    = pool_ext p ∧
  Forall (λ a, a.2 = inl (TypeError "type() takes 1 or 3 arguments"))
    (arrivals (pool_run (parallel_runner env NOTICE operation Metaclass function_name
                           args kwargs pass_schema_in_kwargs) kwargs0 schemas schedule p)).
Proof.
  unfold pool_run. revert p.
  induction schedule as [|step schedule IH]; intros p Harr; simpl; [done|].
  destruct (pool_step_metaclass function_name args kwargs pass_schema_in_kwargs kwargs0
              schemas p step Harr) as (Hext & Hstep).
  destruct (IH _ Hstep) as (Hext' & Hall).
  split; [by rewrite Hext', Hext | done].
Qed.

(** X11. [parallel] handed a command class where [sequential] takes one:
    it passes on the type of what it is given, so each task is handed the
    type of the class and raises the [TypeError] of [type()] before it
    resolves a schema or touches a connection. Every task fails in this
    way, the outside world stays as it was, and the run raises that
    [TypeError]. *)
Theorem parallel_given_a_class (schedule : list (nat * nat)) (schemas : list string)
    (cls : CommandClass) (function_name : option string) (args : option (list Value))
    (kwargs : KwargsArg) (pass_schema_in_kwargs : bool) (st : State Ext) :
  valid_schedule (length schemas)
    (pool_size env (PGSCHEMAS_PARALLEL_MAX_PROCESSES (settings env))) schedule →
  schemas ≠ [] →
  (parallel env NOTICE operation HAS_TQDM HAS_CONFIGURATIONS schedule schemas (Class cls)
     function_name args kwargs pass_schema_in_kwargs st).2
    = Some (inl (TypeError "type() takes 1 or 3 arguments")) ∧
  ext (parallel env NOTICE operation HAS_TQDM HAS_CONFIGURATIONS schedule schemas
         (Class cls) function_name args kwargs pass_schema_in_kwargs st).1 = ext st ∧
  Forall (λ a, a.2 = inl (TypeError "type() takes 1 or 3 arguments"))
    (arrivals (parallel_pool env NOTICE operation HAS_CONFIGURATIONS schedule schemas
                 (Class cls) function_name args kwargs pass_schema_in_kwargs st)).
Proof.
  intros Hvalid Hne.
  destruct (parallel_pool_arrivals schedule schemas (Class cls) function_name args kwargs
              pass_schema_in_kwargs st Hvalid) as (Hfst & Hnames).
  set (pool := parallel_pool _ _ _ _ _ _ _ _ _ _ _ _) in *.
  assert (pool_ext pool = ext st ∧
          Forall (λ a, a.2 = inl (TypeError "type() takes 1 or 3 arguments"))
            (arrivals pool)) as (Hext & Hall).
  { apply (pool_run_metaclass function_name args kwargs pass_schema_in_kwargs
             (the_kwargs st) schemas schedule
             (Pool_new env (PGSCHEMAS_PARALLEL_MAX_PROCESSES (settings env))
                (init_configurations HAS_CONFIGURATIONS) st)).
    constructor. }
  assert (arrivals pool ≠ []) as Hsome.
  { intros Hnil. destruct Hvalid as [Hperm _].
    rewrite <- Hfst, Hnil in Hperm. simpl in Hperm.
    apply Permutation_nil_l in Hperm. destruct schemas; [done|discriminate]. }
  assert (∀ i e, (i, inl e) ∈ arrivals pool →
                 e = TypeError "type() takes 1 or 3 arguments") as Hsame.
  { intros i e Hin. rewrite Forall_forall in Hall. by injection (Hall _ Hin). }
  split; [|split; [exact Hext | exact Hall]].
  unfold parallel, tqdm. simpl. fold pool.
  destruct (collected_outcome HAS_TQDM schemas (arrivals pool)) as (r & -> & Hr);
    [rewrite Hfst; apply Hvalid | done |].
  destruct r as [e|result].
  - do 2 f_equal. destruct HAS_TQDM.
    + destruct Hr as (i & Hin & _). by eapply Hsame.
    + destruct Hr as (before & i & after & Harr & _). apply (Hsame i).
      rewrite Harr. apply elem_of_app. right. apply list_elem_of_here.
  - destruct Hr as (_ & Hreturned). destruct (arrivals pool) as [|a rest]; [done|].
    apply Forall_cons in Hall as [Ha _]. apply Forall_cons in Hreturned as [[token Hb] _].
    congruence.
Qed.

(** *** Where the streams of the caller's command lead after a task *)

Lemma same_streams_refl (st : State Ext) : same_streams st st.
Proof. by split. Qed.

Lemma same_streams_trans (st1 st2 st3 : State Ext) :
  same_streams st1 st2 → same_streams st2 st3 → same_streams st1 st3.
Proof.
  intros [Hc1 Hh1] [Hc2 Hh2]. split; [congruence|].
  intros a. by rewrite Hh2, Hh1.
Qed.

Lemma same_streams_destination (sel : StreamSel) (st st' : State Ext) :
  same_streams st st' → destination sel st' = destination sel st.
Proof.
  intros [Hc Hh]. unfold destination. rewrite Hc.
  by destruct (stream_of sel (the_command st)).
Qed.

Lemma alter_wrapped (slot : StyleSlot) (a b : nat) (h : list OutputWrapper) :
  wrapped <$> alter (λ w, {| wrapped := wrapped w; style_func := slot |}) a h !! b
  = wrapped <$> h !! b.
Proof.
  destruct (decide (a = b)) as [->|Hne].
  - rewrite list_lookup_alter_eq. by destruct (h !! b).
  - by rewrite list_lookup_alter_ne.
Qed.

Lemma set_style_func_streams (v : Value) (slot : StyleSlot) (st : State Ext) :
  same_streams st (set_style_func v slot st).
Proof.
  destruct v; try apply same_streams_refl.
  split; [done|]. intros a. simpl. apply alter_wrapped.
Qed.

Lemma wrapper_write_streams (a : nat) (message : string) (st : State Ext) :
  same_streams st (wrapper_write NOTICE a message st).
Proof.
  unfold wrapper_write. destruct (heap st !! a) as [w|] eqn:Hw; [|apply same_streams_refl].
  destruct (call_style NOTICE (style_func w) message) as [slot text].
  split; [done|]. intros b. simpl.
  destruct (decide (a = b)) as [<-|Hne].
  - rewrite list_lookup_insert_eq by by eapply lookup_lt_Some. by rewrite Hw.
  - by rewrite list_lookup_insert_ne.
Qed.

Lemma writes_streams (ws : list (StreamSel * string)) (st : State Ext) :
  same_streams st (foldl (λ s w, write NOTICE w s) st ws).
Proof.
  revert st. induction ws as [|w ws IH]; intros st; simpl; [apply same_streams_refl|].
  eapply same_streams_trans; [|apply IH].
  unfold write. destruct (stream_of w.1 (the_command st)); try apply same_streams_refl.
  apply wrapper_write_streams.
Qed.

Lemma invoke_streams (inv : Invocation) (st : State Ext) :
  same_streams st (invoke NOTICE operation inv st).1.
Proof.
  unfold invoke.
  set (st1 := set_ext _ (set_trace _ st)).
  pose proof (writes_streams (writes (operation inv (active st) (ext st))) st1) as H.
  by destruct (raised (operation inv (active st) (ext st))).
Qed.

Lemma dispatch_streams (function_name : option string) (args : list Value)
    (st : State Ext) :
  same_streams st (dispatch NOTICE operation function_name args st).1.
Proof.
  unfold dispatch. repeat case_decide; try apply invoke_streams.
  destruct function_name; [apply invoke_streams | apply same_streams_refl].
Qed.

(** Lines 43-69: both streams of the command end up as wrappers, each
    leading where the value bound to it leads. *)
Lemma prepare_streams_destination (name executor_codename : string) (st : State Ext) :
  wrappers_exist st →
  ∃ st' a_out a_err,
    prepare_streams name executor_codename st = (st', inr tt) ∧
    stdout (the_command st') = VWrapper a_out ∧
    stderr (the_command st') = VWrapper a_err ∧
    heap st' !! a_out ≠ None ∧ heap st' !! a_err ≠ None ∧
    wrapped <$> heap st' !! a_out = target (bound_stdout st) (heap st) ∧
    wrapped <$> heap st' !! a_err = target (bound_stderr st) (heap st).
Proof.
  intros Hvalid.
  unfold prepare_streams, bind at 1.
  destruct (bind_stdout_spec st) as (s1 & a1 & -> & Hout1 & Herr1 & Hk1 & Hheap1).
  unfold bind at 1.
  destruct (bind_stderr_spec s1) as (s2 & a2 & -> & Herr2 & Hout2 & Hheap2).
  fold (bound_stdout st) in Hheap1.
  assert (default (stderr (the_command s1)) (the_kwargs s1 !! "stderr") = bound_stderr st)
    as Herr.
  { unfold bound_stderr. by rewrite Herr1, Hk1, lookup_delete_ne. }
  rewrite Herr in Hheap2.
  assert (a1 < length (heap s1) ∧
          wrapped <$> heap s1 !! a1 = target (bound_stdout st) (heap st) ∧
          ∀ b, b < length (heap st) → heap s1 !! b = heap st !! b)
    as (Hlt1 & Hto1 & Hold1).
  { destruct Hheap1 as [[Ho ->] | (Ho & -> & ->)].
    - split; [apply Hvalid; auto|]. by rewrite Ho.
    - rewrite length_app. simpl. split; [lia|]. split.
      + rewrite list_lookup_middle by done. simpl.
        destruct (bound_stdout st) as [| | | | |b]; try done. by destruct (Ho b).
      + intros b Hb. by rewrite lookup_app_l. }
  assert (a2 < length (heap s2) ∧
          wrapped <$> heap s2 !! a2 = target (bound_stderr st) (heap st) ∧
          ∀ b, b < length (heap s1) → heap s2 !! b = heap s1 !! b)
    as (Hlt2 & Hto2 & Hold2).
  { destruct Hheap2 as [[He ->] | (He & -> & ->)].
    - assert (a2 < length (heap st)) as Hlt by (apply Hvalid; auto).
      split; [|split; [|done]].
      + apply lookup_lt_is_Some. rewrite Hold1 by done. by apply lookup_lt_is_Some.
      + rewrite He. simpl. by rewrite Hold1.
    - rewrite length_app. simpl. split; [lia|]. split.
      + rewrite list_lookup_middle by done. simpl.
        destruct (bound_stderr st) as [| | | | |b]; try done. by destruct (He b).
      + intros b Hb. by rewrite lookup_app_l. }
  unfold install_style_funcs. rewrite Hout2, Hout1. simpl. rewrite Herr2. simpl.
  eexists _, a1, a2. split; [reflexivity|]. simpl.
  rewrite Hout2, Hout1, Herr2.
  split; [done|]. split; [done|].
  assert (a1 < length (heap s2)) as Hlt1'.
  { apply lookup_lt_is_Some. rewrite Hold2 by done. by apply lookup_lt_is_Some. }
  match goal with
  | |- ?h !! a1 ≠ None ∧ _ =>
      assert (∀ b, wrapped <$> h !! b = wrapped <$> heap s2 !! b) as Hfinal
        by (intros b; by rewrite !alter_wrapped);
      assert (∀ b, b < length (heap s2) → h !! b ≠ None) as Hsome
  end.
  { intros b [w Hw]%lookup_lt_is_Some Hnone. specialize (Hfinal b).
    by rewrite Hnone, Hw in Hfinal. }
  split; [by apply Hsome|]. split; [by apply Hsome|].
  rewrite !Hfinal. split; [|done].
  by rewrite Hold2.
Qed.

(** A task run on the caller's own command and dict: where the streams of
    the command lead when the task has ended. *)
Lemma run_on_schema_streams (name executor_codename : string)
    (function_name : option string) (args : option (list Value))
    (pass_schema_in_kwargs fork_db : bool) (st st' : State Ext) (r : Exn + string) :
  wrappers_exist st →
  run_on_schema env NOTICE operation name executor_codename Instance function_name args
    KwargsDict pass_schema_in_kwargs fork_db st = (st', r) →
  ∃ a_out a_err,
    stdout (the_command st') = VWrapper a_out ∧
    stderr (the_command st') = VWrapper a_err ∧
    heap st' !! a_out ≠ None ∧ heap st' !! a_err ≠ None ∧
    wrapped <$> heap st' !! a_out = target (bound_stdout st) (heap st) ∧
    wrapped <$> heap st' !! a_err = target (bound_stderr st) (heap st).
Proof.
  intros Hvalid. unfold run_on_schema.
  rewrite run_on_schema_body_steps. simpl.
  set (sA := set_trace (trace st ++ [EvTask name]) st).
  destruct (prepare_streams_destination name executor_codename sA Hvalid)
    as (s2 & a_out & a_err & -> & Hout & Herr & Hs1 & Hs2 & Ho & He).
  simpl.
  set (s3 := if fork_db then set_trace (trace s2 ++ [EvCloseAll]) s2 else s2).
  assert (same_streams s2 s3) as H3 by (subst s3; by destruct fork_db).
  destruct (resolve_schema env name (ext s3)) as [e|schema].
  { intros [= <- _]. exists a_out, a_err. destruct H3 as [Hc Hh]. simpl.
    rewrite Hc, !Hh. repeat split; try done.
    - intros Hn. specialize (Hh a_out). rewrite Hn in Hh.
      by destruct (heap s2 !! a_out).
    - intros Hn. specialize (Hh a_err). rewrite Hn in Hh.
      by destruct (heap s2 !! a_err). }
  set (s6 := if pass_schema_in_kwargs then _ else _).
  assert (same_streams s3 s6) as H6 by (subst s6; by destruct pass_schema_in_kwargs).
  pose proof (dispatch_streams function_name (default [] args) s6) as H7.
  destruct (dispatch NOTICE operation function_name (default [] args) s6)
    as [s7 outcome]. simpl in H7.
  assert (same_streams s2 s7) as [Hc Hh].
  { eapply same_streams_trans; [exact H3|].
    eapply same_streams_trans; [exact H6 | exact H7]. }
  intros Hrun.
  assert (same_streams s7 st') as [Hc' Hh'].
  { destruct outcome as [e|[]]; injection Hrun as <- _; [apply same_streams_refl|].
    by destruct fork_db. }
  exists a_out, a_err.
  rewrite Hc', Hc, !Hh', !Hh. repeat split; try done.
  - intros Hn. pose proof (Hh' a_out) as H. rewrite Hn, Hh in H.
    by destruct (heap s2 !! a_out).
  - intros Hn. pose proof (Hh' a_err) as H. rewrite Hn, Hh in H.
    by destruct (heap s2 !! a_err).
Qed.

(** X12. A task run on the caller's own command instance and dict rebinds
    the streams of that instance for good. When the task has ended,
    whatever its outcome, [command.stdout] leads to the stream that was
    given under "stdout" in the dict, or with no such entry to where it led
    before, and [command.stderr] likewise; both entries are gone from the
    caller's dict. *)
Theorem task_rebinds_caller_streams (name executor_codename : string)
    (function_name : option string) (args : option (list Value))
    (pass_schema_in_kwargs fork_db : bool) (st st' : State Ext) (r : Exn + string) :
  wrappers_exist st →
  run_on_schema env NOTICE operation name executor_codename Instance function_name args
    KwargsDict pass_schema_in_kwargs fork_db st = (st', r) →
  destination ToStdout st' = target (bound_stdout st) (heap st) ∧
  destination ToStderr st' = target (bound_stderr st) (heap st) ∧
  the_kwargs st' !! "stdout" = None ∧ the_kwargs st' !! "stderr" = None.
Proof.
  intros Hvalid Hrun.
  destruct (run_on_schema_streams name executor_codename function_name args
              pass_schema_in_kwargs fork_db st st' r Hvalid Hrun)
    as (a_out & a_err & Hout & Herr & _ & _ & Ho & He).
  unfold destination. simpl. rewrite Hout, Herr.
  split; [done|]. split; [done|].
  pose proof (run_on_schema_kwargs name executor_codename Instance function_name args
                KwargsDict pass_schema_in_kwargs fork_db st) as (_ & _ & Hk).
  rewrite Hrun in Hk. by apply Hk.
Qed.

Lemma for_each_streams (function_name : option string) (args : option (list Value))
    (pass_schema_in_kwargs : bool) (schemas : list string) (st : State Ext) :
  wrappers_exist st → schemas ≠ [] →
  destination ToStdout
    (for_each (sequential_runner env NOTICE operation Instance function_name args
                 KwargsDict pass_schema_in_kwargs) schemas st).1
    = target (bound_stdout st) (heap st) ∧
  destination ToStderr
    (for_each (sequential_runner env NOTICE operation Instance function_name args
                 KwargsDict pass_schema_in_kwargs) schemas st).1
    = target (bound_stderr st) (heap st).
Proof.
  revert st. induction schemas as [|name schemas IH]; intros st Hvalid Hne; [done|].
  simpl. unfold bind at 1 2. unfold sequential_runner at 1 3.
  destruct (run_on_schema env NOTICE operation name "sequential" Instance function_name
              args KwargsDict pass_schema_in_kwargs false st) as [s1 r] eqn:Hrun.
  destruct (run_on_schema_streams name "sequential" function_name args
              pass_schema_in_kwargs false st s1 r Hvalid Hrun)
    as (a_out & a_err & Hout & Herr & Hs1 & Hs2 & Ho & He).
  pose proof (run_on_schema_kwargs name "sequential" Instance function_name args
                KwargsDict pass_schema_in_kwargs false st) as (_ & _ & Hk).
  rewrite Hrun in Hk. destruct Hk as [Hk1 Hk2]; [done | done |]. simpl in Hk1, Hk2.
  assert (destination ToStdout s1 = target (bound_stdout st) (heap st) ∧
          destination ToStderr s1 = target (bound_stderr st) (heap st)) as Hnow.
  { unfold destination. simpl. by rewrite Hout, Herr. }
  destruct r as [e|token]; [done|].
  destruct schemas as [|next schemas]; [done|].
  assert (bound_stdout s1 = VWrapper a_out ∧ bound_stderr s1 = VWrapper a_err)
    as [Hbo Hbe].
  { unfold bound_stdout, bound_stderr. by rewrite Hk1, Hk2, Hout, Herr. }
  destruct (IH s1) as [Hio Hie]; [|done|].
  { intros a [Ha | Ha]; rewrite ?Hbo, ?Hbe in Ha; injection Ha as <-;
      by apply lookup_lt_is_Some, not_eq_None_Some. }
  rewrite Hio, Hie, Hbo, Hbe. simpl. by rewrite Ho, He.
Qed.

(** X13. In a sequential run on the caller's own command instance and
    dict, the streams bound by the first task stay for the whole run and
    after it: the "stdout" and "stderr" entries of the dict are used once,
    by the first task, and when the run has ended, finished or failed, the
    streams of the caller's instance lead where those entries pointed, or
    with no entry to where they led before. *)
Theorem sequential_keeps_first_streams (schemas : list string)
    (function_name : option string) (args : option (list Value))
    (pass_schema_in_kwargs : bool) (st : State Ext) :
  wrappers_exist st → schemas ≠ [] →
  destination ToStdout
    (sequential env NOTICE operation HAS_TQDM schemas Instance function_name args
       KwargsDict pass_schema_in_kwargs st).1
    = target (bound_stdout st) (heap st) ∧
  destination ToStderr
    (sequential env NOTICE operation HAS_TQDM schemas Instance function_name args
       KwargsDict pass_schema_in_kwargs st).1
    = target (bound_stderr st) (heap st).
Proof.
  intros Hvalid Hne. rewrite sequential_loop.
  pose proof (for_each_streams function_name args pass_schema_in_kwargs schemas st
                Hvalid Hne) as H.
  by destruct (for_each _ schemas st) as [st' r].
Qed.

(** *** Where the output of a task goes *)

Lemma same_streams_bound (a : nat) (st st' : State Ext) :
  same_streams st st' → heap st !! a ≠ None → heap st' !! a ≠ None.
Proof.
  intros [_ Hh] Hsome Hnone. specialize (Hh a). rewrite Hnone in Hh.
  by destruct (heap st !! a).
Qed.

(** Every message of the operation reaches the stream that the attribute
    it was written to leads to. *)
Lemma writes_written (ws : list (StreamSel * string)) (st : State Ext)
    (a_out a_err : nat) :
  stdout (the_command st) = VWrapper a_out →
  stderr (the_command st) = VWrapper a_err →
  heap st !! a_out ≠ None → heap st !! a_err ≠ None →
  ∃ added,
    written (foldl (λ s w, write NOTICE w s) st ws) = written st ++ added ∧
    Forall2 (λ entry w, Some entry.1 = destination w.1 st) added ws.
Proof.
  revert st. induction ws as [|[sel message] ws IH]; intros st Hout Herr Ho He; simpl.
  { exists []. by rewrite app_nil_r. }
  set (st1 := write NOTICE (sel, message) st).
  assert (same_streams st st1) as Hsame.
  { subst st1. unfold write. simpl.
    destruct (stream_of sel (the_command st)); try apply same_streams_refl.
    apply wrapper_write_streams. }
  assert (∃ entry, written st1 = written st ++ [entry] ∧
                   Some entry.1 = destination sel st) as (entry & Hw1 & Hentry).
  { subst st1. unfold write, destination, wrapper_write. simpl.
    assert (∃ a, stream_of sel (the_command st) = VWrapper a ∧ heap st !! a ≠ None)
      as (a & -> & Ha) by (destruct sel; eauto).
    destruct (heap st !! a) as [w|]; [|done].
    destruct (call_style NOTICE (style_func w) message) as [slot text].
    by eexists. }
  destruct (IH st1) as (added & Hw & Hall).
  - destruct Hsame as [-> _]. exact Hout.
  - destruct Hsame as [-> _]. exact Herr.
  - by eapply same_streams_bound.
  - by eapply same_streams_bound.
  - exists (entry :: added). rewrite Hw, Hw1, <- app_assoc. split; [done|].
    constructor; [done|].
    eapply Forall2_impl; [exact Hall|]. intros e w ->. simpl.
    by apply same_streams_destination.
Qed.

(** A task that makes its call, once its command is bound: the call, and
    where each message of the operation has gone. *)
Lemma run_on_schema_body_output (name executor_codename : string) (command : CommandArg)
    (f : string) (args : list Value) (pass_schema_in_kwargs fork_db : bool)
    (s1 st : State Ext) (schema : SchemaObject) :
  bind_command command st = (s1, inr tt) →
  wrappers_exist s1 →
  resolve_schema env name (ext st) = inr schema →
  ∃ st' r evs inv added,
    run_on_schema_body env NOTICE operation name executor_codename command (Some f)
      args pass_schema_in_kwargs fork_db st = (st', r) ∧
    trace st' = trace st ++ evs ∧
    invocations_of evs = [inv] ∧
    written st' = written st ++ added ∧
    Forall2 (λ entry w, Some entry.1 = target (bound w.1 s1) (heap s1)) added
      (writes (operation inv (Some schema) (ext st))).
Proof.
  intros Hbind Hvalid Hres. rewrite run_on_schema_body_steps, Hbind.
  destruct (bind_command_world command s1 st Hbind) as (Ht1 & He1 & Hk1 & Ha1 & Hw1).
  pose proof (prepare_streams_written name executor_codename s1) as Hw2.
  destruct (prepare_streams_spec name executor_codename s1)
    as (s2 & Hprep & Ht2 & Ha2 & He2 & Hk2 & _).
  destruct (prepare_streams_destination name executor_codename s1 Hvalid)
    as (s2' & a_out & a_err & Hprep' & Hout & Herr & Hs1 & Hs2 & Ho & He).
  rewrite Hprep in Hprep'. injection Hprep' as <-.
  rewrite Hprep in Hw2 |- *. simpl in Hw2. simpl.
  set (s3 := if fork_db then set_trace (trace s2 ++ [EvCloseAll]) s2 else s2).
  assert (trace s3 = trace st ++ closing fork_db ∧ ext s3 = ext st ∧
          the_kwargs s3 = without_streams (the_kwargs st) ∧
          written s3 = written st ∧ the_command s3 = the_command s2 ∧
          heap s3 = heap s2)
    as (Ht3 & He3 & Hk3 & Hw3 & Hc3 & Hh3).
  { subst s3. destruct fork_db; simpl;
      rewrite ?Ht2, ?He2, ?Hk2, ?Hw2, ?Ht1, ?He1, ?Hk1, ?Hw1;
      by rewrite ?app_nil_r. }
  rewrite He3, Hres.
  set (s5 := set_trace _ (set_active _ _)).
  set (s6 := if pass_schema_in_kwargs then _ else s5).
  assert (trace s6 = trace st ++ closing fork_db ++ [EvResolve name; EvActivate schema] ∧
          the_kwargs s6 = injected pass_schema_in_kwargs name (without_streams (the_kwargs st)) ∧
          active s6 = Some schema ∧ ext s6 = ext st ∧ written s6 = written st ∧
          the_command s6 = the_command s2 ∧ heap s6 = heap s2)
    as (Ht6 & Hk6 & Ha6 & He6 & Hw6 & Hc6 & Hh6).
  { subst s6 s5. destruct pass_schema_in_kwargs; simpl;
      rewrite Ht3, Hk3, He3, Hw3, Hc3, Hh3; by rewrite <- !app_assoc. }
  pose proof (dispatch_spec (Some f) args s6) as Hd. simpl in Hd.
  fold (call_for f (the_command s6) args (the_kwargs s6)) in Hd.
  rewrite Hd. rewrite Hk6.
  set (inv := call_for f (the_command s6) args
                (injected pass_schema_in_kwargs name (without_streams (the_kwargs st)))).
  unfold invoke. rewrite Ha6, He6.
  set (o := operation inv (Some schema) (ext st)).
  set (st1 := set_ext (ext_after o) (set_trace (trace s6 ++ [EvInvoke inv]) s6)).
  destruct (writes_frame (writes o) st1) as (Ht7 & _).
  destruct (writes_written (writes o) st1 a_out a_err) as (added & Hw7 & Hall).
  { subst st1. simpl. by rewrite Hc6. }
  { subst st1. simpl. by rewrite Hc6. }
  { subst st1. simpl. by rewrite Hh6. }
  { subst st1. simpl. by rewrite Hh6. }
  assert (Forall2 (λ entry w, Some entry.1 = target (bound w.1 s1) (heap s1)) added
            (writes o)) as Hto.
  { eapply Forall2_impl; [exact Hall|]. intros entry [sel message] ->.
    unfold destination. subst st1. simpl. rewrite Hc6, Hh6.
    destruct sel; simpl; by rewrite ?Hout, ?Herr. }
  set (s7 := foldl (λ s w, write NOTICE w s) st1 (writes o)) in *.
  assert (trace s7 = trace st ++ closing fork_db
                       ++ [EvResolve name; EvActivate schema; EvInvoke inv] ∧
          written s7 = written st ++ added) as (Ht7' & Hw7').
  { rewrite Ht7, Hw7. subst st1. simpl. rewrite Ht6, Hw6. by rewrite <- !app_assoc. }
  destruct (raised o) as [e|].
  - eexists s7, _, _, inv, added. split; [reflexivity|].
    split; [exact Ht7'|]. split; [by destruct fork_db|]. by split.
  - eexists _, _, (closing fork_db ++ [EvResolve name; EvActivate schema; EvInvoke inv]
                   ++ finishing fork_db), inv, added.
    split; [reflexivity|].
    split; [destruct fork_db; simpl; rewrite Ht7'; simpl; by rewrite <- ?app_assoc|].
    split; [by destruct fork_db|]. split; [by destruct fork_db|]. done.
Qed.

(** The streams of the command in use once it is bound. *)
Lemma bind_command_sources (command : CommandArg) (kwargs : KwargsArg)
    (st s0 s1 : State Ext) :
  sources_exist command kwargs st →
  heap s0 = heap st → the_command s0 = the_command st →
  the_kwargs s0 = match kwargs with
                  | KwargsNone => ∅
                  | KwargsDict => the_kwargs st
                  end →
  bind_command command s0 = (s1, inr tt) →
  wrappers_exist s1 ∧
  ∀ sel, target (bound sel s1) (heap s1)
         = target (stream_source sel command kwargs st) (heap st).
Proof.
  intros Hvalid Hh Hc Hk Hbind.
  assert (∀ sel, the_kwargs s0 !! stream_key sel =
                 match kwargs with
                 | KwargsDict => the_kwargs st !! stream_key sel
                 | KwargsNone => None
                 end) as Hgiven.
  { intros sel. rewrite Hk. by destruct kwargs. }
  destruct command as [|cls|]; simpl in Hbind; [| |done].
  - injection Hbind as <-.
    assert (∀ sel, bound sel s0 = stream_source sel Instance kwargs st) as Hsame.
    { intros sel. unfold stream_source. rewrite <- Hgiven, <- Hc. by destruct sel. }
    split.
    + intros a Ha. rewrite Hh.
      destruct Ha as [Ha | Ha]; [apply (Hvalid ToStdout) | apply (Hvalid ToStderr)];
        by rewrite <- Hsame.
    + intros sel. by rewrite Hsame, Hh.
  - assert (heap s1 = heap st ++ [{| wrapped := VStream "sys.stdout";
                                     style_func := Plain (λ x, x) |};
                                  {| wrapped := VStream "sys.stderr";
                                     style_func := Plain (λ x, x) |}] ∧
            stdout (the_command s1) = VWrapper (length (heap st)) ∧
            stderr (the_command s1) = VWrapper (S (length (heap st))) ∧
            the_kwargs s1 = the_kwargs s0) as (Hh1 & Hout & Herr & Hk1).
    { unfold instantiate in Hbind. simpl in Hbind. injection Hbind as <-. simpl.
      rewrite length_app, <- app_assoc, Hh. simpl. by rewrite Nat.add_1_r. }
    assert (∀ sel, bound sel s1
                   = default
                       match sel with
                       | ToStdout => VWrapper (length (heap st))
                       | ToStderr => VWrapper (S (length (heap st)))
                       end
                       match kwargs with
                       | KwargsDict => the_kwargs st !! stream_key sel
                       | KwargsNone => None
                       end) as Hbound.
    { intros sel. rewrite <- Hgiven, <- Hk1.
      destruct sel; unfold bound, bound_stdout, bound_stderr; simpl;
        by rewrite ?Hout, ?Herr. }
    assert (∀ sel a, bound sel s1 = VWrapper a →
                     a < length (heap s1) ∧
                     target (VWrapper a) (heap s1)
                     = target (stream_source sel (Class cls) kwargs st) (heap st))
      as Hfound.
    { intros sel a. rewrite Hbound, Hh1, length_app. simpl.
      specialize (Hvalid sel). unfold stream_source in *.
      destruct (match kwargs with
                | KwargsDict => the_kwargs st !! stream_key sel
                | KwargsNone => None
                end) as [v|]; simpl in *.
      - intros ->. specialize (Hvalid a eq_refl). split; [lia|].
        by rewrite lookup_app_l.
      - destruct sel; intros [= <-]; (split; [lia|]).
        + rewrite lookup_app_r by lia. by rewrite Nat.sub_diag.
        + rewrite lookup_app_r by lia.
          by replace (S (length (heap st)) - length (heap st)) with 1 by lia. }
    split.
    + intros a [Ha | Ha]; [apply (Hfound ToStdout) | apply (Hfound ToStderr)]; exact Ha.
    + intros sel. destruct (bound sel s1) as [| | | | |a] eqn:Hb.
      6: by apply Hfound.
      all: rewrite Hbound in Hb; unfold stream_source;
        destruct (match kwargs with
                  | KwargsDict => the_kwargs st !! stream_key sel
                  | KwargsNone => None
                  end) as [v|]; simpl in *; [by subst v | by destruct sel].
Qed.

(** [run_on_schema] as a whole: where the output it adds has gone. *)
Lemma run_on_schema_output (name executor_codename : string) (command : CommandArg)
    (function_name : option string) (args : option (list Value)) (kwargs : KwargsArg)
    (pass_schema_in_kwargs fork_db : bool) (st : State Ext) :
  command ≠ Metaclass →
  sources_exist command kwargs st →
  ∃ st' r evs added,
    run_on_schema env NOTICE operation name executor_codename command function_name
      args kwargs pass_schema_in_kwargs fork_db st = (st', r) ∧
    trace st' = trace st ++ evs ∧
    written st' = written st ++ added ∧
    match resolve_schema env name (ext st), function_name with
    | inr schema, Some f =>
        ∃ inv,
          invocations_of evs = [inv] ∧
          Forall2 (λ entry w,
                     Some entry.1
                     = target (stream_source w.1 command kwargs st) (heap st))
            added (writes (operation inv (Some schema) (ext st)))
    | _, _ => added = []
    end.
Proof.
  intros Hcmd Hvalid. unfold run_on_schema.
  set (st0 := match kwargs with
              | KwargsNone => set_kwargs ∅ st
              | KwargsDict => st
              end).
  set (sA := set_trace (trace st0 ++ [EvTask name]) st0).
  assert (trace sA = trace st ++ [EvTask name] ∧ ext sA = ext st ∧
          written sA = written st ∧ heap sA = heap st ∧
          the_command sA = the_command st ∧
          the_kwargs sA = match kwargs with
                          | KwargsNone => ∅
                          | KwargsDict => the_kwargs st
                          end) as (HtA & HeA & HwA & HhA & HcA & HkA).
  { subst sA st0. by destruct kwargs. }
  assert (∃ s1, bind_command command sA = (s1, inr tt)) as [s1 Hbind].
  { pose proof (bind_command_spec command sA) as Hb.
    destruct command; [by eexists | | done]. destruct Hb as (s1 & ? & _). by eexists. }
  destruct (bind_command_sources command kwargs st sA s1 Hvalid HhA HcA HkA Hbind)
    as (Hexist & Hsources).
  assert (∀ s : State Ext,
            let s' := match command with
                      | Instance => match kwargs with
                                    | KwargsNone => set_kwargs (the_kwargs st) s
                                    | KwargsDict => s
                                    end
                      | _ => set_command (the_command st)
                               match kwargs with
                               | KwargsNone => set_kwargs (the_kwargs st) s
                               | KwargsDict => s
                               end
                      end in
            trace s' = trace s ∧ written s' = written s) as Hpost.
  { intros s. by destruct command, kwargs. }
  destruct (resolve_schema env name (ext st)) as [e|schema] eqn:Hres;
    [|destruct function_name as [f|]].
  - destruct (run_on_schema_body_world name executor_codename command function_name
                (default [] args) pass_schema_in_kwargs fork_db s1 sA Hbind)
      as (st' & r & evs & -> & Ht & Hrest).
    rewrite HeA, Hres in Hrest. destruct Hrest as (_ & _ & _ & Hw & _).
    eexists _, r, (EvTask name :: evs), []. split; [reflexivity|].
    destruct (Hpost st') as (-> & ->).
    rewrite Ht, HtA, Hw, HwA, <- app_assoc, app_nil_r. done.
  - destruct (run_on_schema_body_output name executor_codename command f
                (default [] args) pass_schema_in_kwargs fork_db s1 sA schema Hbind Hexist)
      as (st' & r & evs & inv & added & -> & Ht & Hi & Hw & Hall);
      [by rewrite HeA|].
    eexists _, r, (EvTask name :: evs), added. split; [reflexivity|].
    destruct (Hpost st') as (-> & ->).
    rewrite Ht, HtA, Hw, HwA, <- app_assoc. split; [done|]. split; [done|].
    exists inv. split; [done|]. rewrite HeA in Hall.
    eapply Forall2_impl; [exact Hall|]. intros entry w ->. apply Hsources.
  - destruct (run_on_schema_body_world name executor_codename command None
                (default [] args) pass_schema_in_kwargs fork_db s1 sA Hbind)
      as (st' & r & evs & -> & Ht & Hrest).
    rewrite HeA, Hres in Hrest. destruct Hrest as (_ & _ & _ & _ & Hw & _).
    eexists _, r, (EvTask name :: evs), []. split; [reflexivity|].
    destruct (Hpost st') as (-> & ->).
    rewrite Ht, HtA, Hw, HwA, <- app_assoc, app_nil_r. done.
Qed.

(** X14. Where the output of a task goes. Each message the operation writes
    to [command.stdout] reaches the stream given under "stdout" in the dict,
    or with no such entry the stream the command in use has, which for a
    command given as a class is [sys.stdout]; and likewise for
    [command.stderr]. The messages arrive in the order in which they were
    written, and the task writes nothing of its own. *)
Theorem task_output_goes_to_bound_streams (name executor_codename : string)
    (command : CommandArg) (f : string) (args : option (list Value))
    (kwargs : KwargsArg) (pass_schema_in_kwargs fork_db : bool) (st : State Ext)
    (schema : SchemaObject) :
  command ≠ Metaclass →
  sources_exist command kwargs st →
  resolve_schema env name (ext st) = inr schema →
  ∃ st' r evs inv added,
    run_on_schema env NOTICE operation name executor_codename command (Some f) args
      kwargs pass_schema_in_kwargs fork_db st = (st', r) ∧
    trace st' = trace st ++ evs ∧
    invocations_of evs = [inv] ∧
    written st' = written st ++ added ∧
    Forall2 (λ entry w,
               Some entry.1 = target (stream_source w.1 command kwargs st) (heap st))
      added (writes (operation inv (Some schema) (ext st))).
Proof.
  intros Hcmd Hvalid Hres.
  destruct (run_on_schema_output name executor_codename command (Some f) args kwargs
              pass_schema_in_kwargs fork_db st Hcmd Hvalid)
    as (st' & r & evs & added & Hrun & Ht & Hw & Hrest).
  rewrite Hres in Hrest. destruct Hrest as (inv & Hi & Hall).
  by exists st', r, evs, inv, added.
Qed.

Lemma for_each_class_output (cls : CommandClass) (function_name : option string)
    (args : option (list Value)) (pass_schema_in_kwargs : bool)
    (schemas : list string) (st : State Ext) :
  the_kwargs st !! "stdout" = None → the_kwargs st !! "stderr" = None →
  ∃ added,
    written (for_each (sequential_runner env NOTICE operation (Class cls) function_name
                         args KwargsDict pass_schema_in_kwargs) schemas st).1
      = written st ++ added ∧
    Forall (λ entry, entry.1 = VStream "sys.stdout" ∨ entry.1 = VStream "sys.stderr")
      added.
Proof.
  revert st. induction schemas as [|name schemas IH]; intros st Hout Herr.
  { exists []. by rewrite app_nil_r. }
  simpl. unfold bind at 1. unfold sequential_runner at 1.
  assert (∀ sel, stream_source sel (Class cls) KwargsDict st = sys_stream sel) as Hsys.
  { intros sel. unfold stream_source. by destruct sel; simpl; rewrite ?Hout, ?Herr. }
  destruct (run_on_schema_output name "sequential" (Class cls) function_name args
              KwargsDict pass_schema_in_kwargs false st)
    as (s1 & r & evs & added & Hrun & _ & Hw & Hrest); [done | |].
  { intros sel a. rewrite Hsys. by destruct sel. }
  assert (Forall (λ entry, entry.1 = VStream "sys.stdout" ∨
                           entry.1 = VStream "sys.stderr") added) as Hadded.
  { destruct (resolve_schema env name (ext st)) as [e|schema];
      [by subst added|destruct function_name as [f|]; [|by subst added]].
    destruct Hrest as (inv & _ & Hall).
    eapply Forall2_Forall_l; [exact Hall|]. apply Forall_true.
    intros [sel message] entry Hentry. rewrite Hsys in Hentry.
    destruct sel; injection Hentry as ->; auto. }
  pose proof (run_on_schema_kwargs name "sequential" (Class cls) function_name args
                KwargsDict pass_schema_in_kwargs false st) as (_ & _ & Hk).
  rewrite Hrun in Hk |- *. destruct Hk as [Hk1 Hk2]; [done | done |]. simpl in Hk1, Hk2.
  destruct r as [e|token]; [by exists added|].
  destruct (IH s1 Hk1 Hk2) as (later & -> & Hlater).
  exists (added ++ later). rewrite Hw, <- app_assoc. split; [done|].
  by apply Forall_app.
Qed.

(** X15. In a sequential run given a command class instead of an instance,
    each task works on a new instance, and the stream entries of the
    caller's dict reach the first task only, which takes them out of the
    dict: whatever is written after the first task goes to [sys.stdout] or
    [sys.stderr]. *)
Theorem sequential_class_streams_reach_first_task (name : string) (schemas : list string)
    (cls : CommandClass) (function_name : option string) (args : option (list Value))
    (pass_schema_in_kwargs : bool) (st : State Ext) :
  ∃ later,
    written (sequential env NOTICE operation HAS_TQDM (name :: schemas) (Class cls)
               function_name args KwargsDict pass_schema_in_kwargs st).1
      = written (run_on_schema env NOTICE operation name "sequential" (Class cls)
                   function_name args KwargsDict pass_schema_in_kwargs false st).1
        ++ later ∧
    Forall (λ entry, entry.1 = VStream "sys.stdout" ∨ entry.1 = VStream "sys.stderr")
      later.
Proof.
  rewrite sequential_loop. simpl. unfold bind at 1. unfold sequential_runner at 1.
  pose proof (run_on_schema_kwargs name "sequential" (Class cls) function_name args
                KwargsDict pass_schema_in_kwargs false st) as (_ & _ & Hk).
  destruct (run_on_schema env NOTICE operation name "sequential" (Class cls)
              function_name args KwargsDict pass_schema_in_kwargs false st)
    as [s1 [e|token]].
  { exists []. by rewrite app_nil_r. }
  destruct Hk as [Hk1 Hk2]; [done | done |]. simpl in Hk1, Hk2.
  destruct (for_each_class_output cls function_name args pass_schema_in_kwargs schemas
              s1 Hk1 Hk2) as (later & Hw & Hlater).
  exists later. split; [|done].
  by destruct (for_each _ schemas s1) as [s2 r].
Qed.

End Properties.

(** ** Concrete runs *)

Section Runs.

Import Demo.

Local Open Scope list_scope.

(** "www" is in the static configuration and in the tenant table, "sample"
    is the clone reference and in the tenant table, "tenant1" is in the
    tenant table alone. *)
Lemma resolve_schema_source_order_witness :
  resolve_schema demo_env "www" demo_table =
    inr (Created {| schema_name := "www";
                    routing := Some {| domain := Some "a.example.com" |} |}) ∧
  resolve_schema demo_env "public" demo_table =
    inr (Created {| schema_name := "public"; routing := Some {| domain := None |} |}) ∧
  resolve_schema demo_env "sample" demo_table =
    inr (Created {| schema_name := "sample"; routing := None |}) ∧
  resolve_schema demo_env "tenant1" demo_table =
    inr (Loaded {| tenant_id := 1; tenant_schema_name := "tenant1" |}).
Proof.
  split; [|split; [|split]].
  - apply (proj1 (resolve_schema_source_order demo_env "www" demo_table)
             {| DOMAINS := Some ["a.example.com"; "b.example.com"] |}).
    vm_compute. reflexivity.
  - apply (proj1 (resolve_schema_source_order demo_env "public" demo_table)
             {| DOMAINS := None |}).
    vm_compute. reflexivity.
  - apply (proj1 (proj2 (resolve_schema_source_order demo_env "sample" demo_table))).
    + vm_compute. reflexivity.
    + reflexivity.
  - rewrite (proj2 (proj2 (resolve_schema_source_order demo_env "tenant1" demo_table))
               ltac:(vm_compute; reflexivity) ltac:(discriminate)
               {| objects := λ table, table |} eq_refl).
    vm_compute. reflexivity.
Defined.

(** "ghost" is nowhere: with the tenant model the failure is [DoesNotExist],
    without it the [CommandError]. *)
Lemma resolve_schema_unknown_witness :
  resolve_schema demo_env "ghost" demo_table = inl DoesNotExist ∧
  resolve_schema static_env "ghost" demo_table =
    inl (CommandError "Unable to find schema ghost!").
Proof.
  split.
  - apply (proj2 (resolve_schema_unknown demo_env "ghost" demo_table
                    ltac:(vm_compute; reflexivity) ltac:(discriminate))
             {| objects := λ table, table |} eq_refl).
    repeat constructor; discriminate.
  - apply (proj1 (resolve_schema_unknown static_env "ghost" demo_table
                    ltac:(vm_compute; reflexivity) ltac:(discriminate))).
    reflexivity.
Defined.

(** After "partial", the next message goes out as it is. *)
Lemma StyleFunc_call_prefixing_witness :
  (StyleFunc_call no_style
     {| sf_executor_codename := "sequential"; sf_schema_name := "tenant1";
        last_message := Some "partial" |}
     (" continued" +:+ newline)).2 = " continued" +:+ newline.
Proof.
  apply (proj1 (proj2 (StyleFunc_call_prefixing no_style
           {| sf_executor_codename := "sequential"; sf_schema_name := "tenant1";
              last_message := Some "partial" |}
           (" continued" +:+ newline)))).
  intros [H | (before & H & Hend)]; [discriminate|].
  injection H as <-. vm_compute in Hend. discriminate.
Defined.

(** The two laws of the specification, on a new style function. *)
Example correlator_complete_lines :
  let '(sf1, first) := StyleFunc_call no_style (StyleFunc_new "sequential" "tenant1")
                         ("hello" +:+ newline) in
  let '(_, second) := StyleFunc_call no_style sf1 ("world" +:+ newline) in
  first = "[sequential:tenant1] hello" +:+ newline ∧
  second = "[sequential:tenant1] world" +:+ newline.
Proof. vm_compute. by split. Qed.

Example correlator_continued_line :
  let '(sf1, first) := StyleFunc_call no_style (StyleFunc_new "sequential" "tenant1")
                         "partial" in
  let '(_, second) := StyleFunc_call no_style sf1 (" continued" +:+ newline) in
  first = "[sequential:tenant1] partial" ∧
  second = " continued" +:+ newline.
Proof. vm_compute. by split. Qed.

(** A sequential run over four schemas whose third task raises. *)
Example sequential_stops_at_failure :
  let '(st', r) := sequential demo_env no_style demo_operation false
                     ["www"; "tenant1"; "broken"; "public"] Instance
                     (Some "handle_tenant") None KwargsDict true demo_state in
  r = inl (OperationError "boom") ∧
  tasks_of (trace st') = ["www"; "tenant1"; "broken"].
Proof. vm_compute. by split. Qed.

(** A caller holding [custom_command] instead of [demo_command] gets the
    same from a parallel run. *)
Lemma parallel_ignores_caller_instance_witness :
  (parallel demo_env no_style demo_operation false true [(1, 0); (0, 1)]
     ["www"; "tenant1"] Instance (Some "handle_tenant") None KwargsDict true
     (set_command custom_command demo_state)).2 =
  (parallel demo_env no_style demo_operation false true [(1, 0); (0, 1)]
     ["www"; "tenant1"] Instance (Some "handle_tenant") None KwargsDict true
     demo_state).2.
Proof.
  apply (parallel_ignores_caller_instance demo_env no_style demo_operation false true
           [(1, 0); (0, 1)] ["www"; "tenant1"] (Some "handle_tenant") None KwargsDict
           true custom_command demo_state).
  reflexivity.
Defined.

(** A direct method call receives the schema name as a named argument. *)
Lemma schema_name_passed_witness :
  Forall (λ inv, named_arguments inv !! "schema_name" = Some (VStr "tenant1"))
    (invocations_of
       (trace (run_on_schema demo_env no_style demo_operation "tenant1" "sequential"
                 Instance (Some "handle_tenant") None KwargsDict true false
                 demo_state).1)).
Proof.
  destruct (schema_name_passed demo_env no_style demo_operation "tenant1" "sequential"
              Instance "handle_tenant" None KwargsDict false demo_state)
    as (st' & r & evs & Hrun & Ht & _ & _ & Hnamed).
  rewrite Hrun. simpl. rewrite Ht. simpl.
  apply Forall_forall. intros inv Hin. rewrite (Hnamed inv Hin). reflexivity.
Defined.

(** An argv call does not: the one call of the task has no named argument,
    although the schema name is to be passed. *)
Lemma argv_call_gets_no_named_argument :
  invocations_of (trace argv_task) = [RunFromArgv (the_command argv_task) []] ∧
  ¬ Forall (λ inv, named_arguments inv !! "schema_name" = Some (VStr "tenant1"))
      (invocations_of (trace argv_task)).
Proof.
  assert (invocations_of (trace argv_task) = [RunFromArgv (the_command argv_task) []])
    as Hinv by (vm_compute; reflexivity).
  split; [exact Hinv|]. rewrite Hinv. intros H.
  apply Forall_cons in H as [H _]. discriminate H.
Qed.

(** The entries a run has no business with are kept. *)
Lemma request_after_run_witness :
  the_kwargs (sequential demo_env no_style demo_operation false ["www"; "tenant1"]
                Instance (Some "handle_tenant") None KwargsDict true demo_state).1
    !! "verbosity" = the_kwargs demo_state !! "verbosity".
Proof.
  destruct (request_after_run demo_env no_style demo_operation false true
              ["www"; "tenant1"] Instance (Some "handle_tenant") None KwargsDict true
              demo_state) as [(st' & r & Hrun & Hkept & _) _].
  rewrite Hrun. simpl. apply Hkept; [discriminate | discriminate |].
  right. discriminate.
Defined.

(** The caller's dict after a sequential run is not the dict it was:
    "stdout" is gone from it and "schema_name" has come into it. *)
Lemma sequential_run_changes_caller_dict :
  the_kwargs demo_state !! "stdout" = Some (VStream "report.txt") ∧
  the_kwargs sequential_run !! "stdout" = None ∧
  the_kwargs demo_state !! "schema_name" = None ∧
  the_kwargs sequential_run !! "schema_name" = Some (VStr "tenant1") ∧
  the_kwargs sequential_run ≠ the_kwargs demo_state.
Proof.
  assert (the_kwargs sequential_run !! "stdout" = None) as Hgone
    by (vm_compute; reflexivity).
  assert (the_kwargs demo_state !! "stdout" = Some (VStream "report.txt")) as Hthere
    by (vm_compute; reflexivity).
  split; [exact Hthere|]. split; [exact Hgone|].
  split; [vm_compute; reflexivity|]. split; [vm_compute; reflexivity|].
  intros Heq. rewrite Heq in Hgone. rewrite Hgone in Hthere. discriminate Hthere.
Qed.



(** Two schemas, run in sequence and run by a pool of two workers that
    finishes the second task first. *)
Lemma executors_return_input_order_witness :
  (sequential demo_env no_style demo_operation false ["www"; "tenant1"] Instance
     (Some "handle_tenant") None KwargsDict true demo_state).2 =
    inr ["www"; "tenant1"] ∧
  (parallel demo_env no_style demo_operation false true [(1, 0); (0, 1)]
     ["www"; "tenant1"] Instance (Some "handle_tenant") None KwargsDict true
     demo_state).2 = Some (inr ["www"; "tenant1"]).
Proof.
  split.
  - apply (proj1 (executors_return_input_order demo_env no_style demo_operation false
                    true ["www"; "tenant1"] Instance (Some "handle_tenant") None
                    KwargsDict true demo_state)).
    vm_compute. exact I.
  - apply (proj2 (executors_return_input_order demo_env no_style demo_operation false
                    true ["www"; "tenant1"] Instance (Some "handle_tenant") None
                    KwargsDict true demo_state)).
    + split.
      * apply perm_swap.
      * repeat constructor.
    + vm_compute. repeat constructor; by eexists.
Defined.

(** The tenant table of the deployment holds each schema name once:
    "tenant1" is found, as the row it is. *)
Lemma resolved_schema_is_the_one_asked_for_witness :
  objects_get {| objects := λ table : World, table |} demo_table "tenant1"
    ≠ inl MultipleObjectsReturned ∧
  ∀ t, objects_get {| objects := λ table : World, table |} demo_table "tenant1"
         = inr (Loaded t) ↔
       t ∈ demo_table ∧ tenant_schema_name t = "tenant1".
Proof.
  apply (proj2 (resolved_schema_is_the_one_asked_for demo_env "tenant1" demo_table)
           {| objects := λ table : World, table |}).
  apply (bool_decide_unpack _). vm_compute. exact I.
Defined.

(** "ghost" is in no source: its task raises [DoesNotExist] and has done
    nothing. *)
Lemma unresolved_task_does_no_work_witness :
  ∃ st' evs,
    run_on_schema demo_env no_style demo_operation "ghost" "sequential" Instance
      (Some "handle_tenant") None KwargsDict true false demo_state
      = (st', inl DoesNotExist) ∧
    trace st' = trace demo_state ++ evs ∧
    invocations_of evs = [] ∧ activations_of evs = [] ∧
    active st' = active demo_state ∧ ext st' = ext demo_state ∧
    written st' = written demo_state.
Proof.
  apply (unresolved_task_does_no_work demo_env no_style demo_operation "ghost"
           "sequential" Instance (Some "handle_tenant") None KwargsDict true false
           demo_state DoesNotExist).
  - discriminate.
  - vm_compute. reflexivity.
Defined.

(** The task of "tenant1" leaves the row of "tenant1" active. *)
Lemma task_activates_its_own_schema_witness :
  name_of (Loaded {| tenant_id := 1; tenant_schema_name := "tenant1" |}) = "tenant1" ∧
  ∃ st' r evs,
    run_on_schema demo_env no_style demo_operation "tenant1" "sequential" Instance
      (Some "handle_tenant") None KwargsDict true false demo_state = (st', r) ∧
    trace st' = trace demo_state ++ evs ∧
    activations_of evs = [Loaded {| tenant_id := 1; tenant_schema_name := "tenant1" |}] ∧
    active st' = Some (Loaded {| tenant_id := 1; tenant_schema_name := "tenant1" |}).
Proof.
  apply (task_activates_its_own_schema demo_env no_style demo_operation "tenant1"
           "sequential" Instance (Some "handle_tenant") None KwargsDict true false
           demo_state).
  - discriminate.
  - vm_compute. reflexivity.
Defined.

(** The operation fails on "broken": the task of "broken" calls it once and
    raises its exception. *)
Lemma task_calls_operation_once_witness :
  ∃ st' r evs inv,
    run_on_schema demo_env no_style demo_operation "broken" "sequential" Instance
      (Some "handle_tenant") None KwargsDict true false demo_state = (st', r) ∧
    trace st' = trace demo_state ++ evs ∧
    invocations_of evs = [inv] ∧
    ext st' =
      ext_after (demo_operation inv
                   (Some (Loaded {| tenant_id := 3; tenant_schema_name := "broken" |}))
                   (ext demo_state)) ∧
    r = match raised (demo_operation inv
                        (Some (Loaded {| tenant_id := 3;
                                         tenant_schema_name := "broken" |}))
                        (ext demo_state)) with
        | Some e => inl e
        | None => inr "broken"
        end.
Proof.
  apply (task_calls_operation_once demo_env no_style demo_operation "broken"
           "sequential" Instance "handle_tenant" None KwargsDict true false
           demo_state).
  - discriminate.
  - vm_compute. reflexivity.
Defined.

(** A task given neither arguments nor a dict, the schema name to be
    passed. *)
Lemma task_with_default_arguments_witness :
  ∃ st' r evs instance,
    run_on_schema demo_env no_style demo_operation "tenant1" "sequential" Instance
      (Some "handle_tenant") None KwargsNone true false demo_state = (st', r) ∧
    trace st' = trace demo_state ++ evs ∧
    invocations_of evs =
      [call_for "handle_tenant" instance [] {["schema_name" := VStr "tenant1"]}] ∧
    the_kwargs st' = the_kwargs demo_state.
Proof.
  apply (task_with_default_arguments demo_env no_style demo_operation "tenant1"
           "sequential" Instance "handle_tenant" true false demo_state
           (Loaded {| tenant_id := 1; tenant_schema_name := "tenant1" |})).
  - discriminate.
  - vm_compute. reflexivity.
Defined.

(** The run over "www" and "tenant1" leaves "tenant1" active. *)
Lemma sequential_leaves_last_schema_active_witness :
  ∃ evs,
    trace sequential_run = trace demo_state ++ evs ∧
    Forall2 (λ schema name, name_of schema = name) (activations_of evs)
      ["www"; "tenant1"] ∧
    active sequential_run =
      from_option Some (active demo_state) (last (activations_of evs)).
Proof.
  apply (sequential_leaves_last_schema_active demo_env no_style demo_operation false
           ["www"; "tenant1"] Instance (Some "handle_tenant") None KwargsDict true
           demo_state sequential_run ["www"; "tenant1"]).
  - discriminate.
  - vm_compute. reflexivity.
Defined.

(** A parallel run over "www" and "broken" whose second task comes back
    first. *)
Lemma parallel_raises_a_task_failure_witness :
  ∃ r,
    (parallel demo_env no_style demo_operation false true [(1, 0); (0, 1)]
       ["www"; "broken"] Instance (Some "handle_tenant") None KwargsDict true
       demo_state).2 = Some r ∧
    match r with
    | inr result =>
        result = ["www"; "broken"] ∧
        Forall (λ a, returned a.2)
          (arrivals (parallel_pool demo_env no_style demo_operation true
                       [(1, 0); (0, 1)] ["www"; "broken"] Instance
                       (Some "handle_tenant") None KwargsDict true demo_state))
    | inl e =>
        ∃ before i after,
          arrivals (parallel_pool demo_env no_style demo_operation true
                      [(1, 0); (0, 1)] ["www"; "broken"] Instance
                      (Some "handle_tenant") None KwargsDict true demo_state)
            = before ++ (i, inl e) :: after ∧
          Forall (λ a, returned a.2) before
    end.
Proof.
  apply (parallel_raises_a_task_failure demo_env no_style demo_operation false true
           [(1, 0); (0, 1)] ["www"; "broken"] Instance (Some "handle_tenant") None
           KwargsDict true demo_state).
  split; [apply perm_swap | repeat constructor].
Defined.

(** The same run, handed the class of the command. *)
Lemma parallel_given_a_class_witness :
  (parallel demo_env no_style demo_operation false true [(1, 0); (0, 1)]
     ["www"; "tenant1"] (Class demo_class) (Some "handle_tenant") None KwargsDict true
     demo_state).2
    = Some (inl (TypeError "type() takes 1 or 3 arguments")) ∧
  ext (parallel demo_env no_style demo_operation false true [(1, 0); (0, 1)]
         ["www"; "tenant1"] (Class demo_class) (Some "handle_tenant") None KwargsDict
         true demo_state).1 = ext demo_state ∧
  Forall (λ a, a.2 = inl (TypeError "type() takes 1 or 3 arguments"))
    (arrivals (parallel_pool demo_env no_style demo_operation true [(1, 0); (0, 1)]
                 ["www"; "tenant1"] (Class demo_class) (Some "handle_tenant") None
                 KwargsDict true demo_state)).
Proof.
  apply (parallel_given_a_class demo_env no_style demo_operation false true
           [(1, 0); (0, 1)] ["www"; "tenant1"] demo_class (Some "handle_tenant") None
           KwargsDict true demo_state).
  - split; [apply perm_swap | repeat constructor].
  - discriminate.
Defined.

(** The caller gave "report.txt" for the standard output: after the task
    the caller's command writes there. *)
Lemma task_rebinds_caller_streams_witness :
  destination ToStdout argv_task = Some (VStream "report.txt") ∧
  destination ToStderr argv_task = Some (VStream "sys.stderr") ∧
  the_kwargs argv_task !! "stdout" = None ∧ the_kwargs argv_task !! "stderr" = None.
Proof.
  apply (task_rebinds_caller_streams demo_env no_style demo_operation "tenant1"
           "sequential" (Some "special:run_from_argv") None true false demo_state
           argv_task (inr "tenant1")).
  - intros a [H | H]; vm_compute in H; [discriminate|].
    injection H as <-. vm_compute. lia.
  - vm_compute. reflexivity.
Defined.

(** And so it does after the whole run. *)
Lemma sequential_keeps_first_streams_witness :
  destination ToStdout sequential_run = Some (VStream "report.txt") ∧
  destination ToStderr sequential_run = Some (VStream "sys.stderr").
Proof.
  apply (sequential_keeps_first_streams demo_env no_style demo_operation false
           ["www"; "tenant1"] (Some "handle_tenant") None true demo_state).
  - intros a [H | H]; vm_compute in H; [discriminate|].
    injection H as <-. vm_compute. lia.
  - discriminate.
Defined.

(** The messages of the operation in the task of "tenant1": the one for
    the standard output goes to "report.txt", the two others to
    [sys.stderr]. *)
Lemma task_output_goes_to_bound_streams_witness :
  ∃ st' r evs inv added,
    run_on_schema demo_env no_style demo_operation "tenant1" "sequential" Instance
      (Some "handle_tenant") None KwargsDict true false demo_state = (st', r) ∧
    trace st' = trace demo_state ++ evs ∧
    invocations_of evs = [inv] ∧
    written st' = written demo_state ++ added ∧
    Forall2 (λ entry w,
               Some entry.1
               = target (stream_source w.1 Instance KwargsDict demo_state)
                   (heap demo_state))
      added
      (writes (demo_operation inv
                 (Some (Loaded {| tenant_id := 1; tenant_schema_name := "tenant1" |}))
                 (ext demo_state))).
Proof.
  apply (task_output_goes_to_bound_streams demo_env no_style demo_operation "tenant1"
           "sequential" Instance "handle_tenant" None KwargsDict true false
           demo_state).
  - discriminate.
  - intros [] a H; vm_compute in H; [discriminate|].
    injection H as <-. vm_compute. lia.
  - vm_compute. reflexivity.
Defined.

(** A run over "www" and "tenant1" given the class of the command and
    "report.txt" for the standard output: the report of "www" is in
    "report.txt", the one of "tenant1" on [sys.stdout]. *)
Example sequential_class_run_output :
  (written (sequential demo_env no_style demo_operation false ["www"; "tenant1"]
              (Class demo_class) (Some "handle_tenant") None KwargsDict true
              demo_state).1).*1
  = [VStream "report.txt"; VStream "sys.stderr"; VStream "sys.stderr";
     VStream "sys.stdout"; VStream "sys.stderr"; VStream "sys.stderr"].
Proof. vm_compute. reflexivity. Qed.

End Runs.
